(** * synthpops: the population pipeline of [synthpops/pop.py]

    A shallow embedding of [Pop.__init__] and [Pop.generate].  Python
    dictionaries are finite maps, Python lists are lists, Python integers
    are [Z], and floating-point quantities are modelled by exact rationals
    [Q].  Exceptions are explicit: every operation that can raise returns a
    [result].  The pseudo-random generator is an explicit state that is
    threaded through every sampling operation.

    [generate] reads its configuration ([n], [with_school_types], the staff
    age range, ...) and the data layer through names that the method itself
    does not bind; here they are the fields of [Config] and [Tables].  The
    routines of the modules [spb], [spcnx] and [spsm] are the fields of
    [Externals]. *)

From Stdlib Require Import ZArith QArith Qround Lia List Permutation.
From stdpp Require Import gmap strings list fin_maps sorting.

Open Scope Z_scope.

(** ** Python outcomes *)

Module Py.

(** The exceptions the modelled code can raise. *)
Inductive exception :=
  | NameError (name : string)
  | KeyError
  | IndexError
  | ValueError
  | TypeError
  | OverflowError
  | ZeroDivisionError.

(** The outcome of running a piece of code: a value, a raised exception, or
    a loop that did not finish within the fuel it was given. *)
Inductive result (A : Type) :=
  | Ok (a : A)
  | Raise (e : exception)
  | OutOfFuel.
Arguments Ok {A} a.
Arguments Raise {A} e.
Arguments OutOfFuel {A}.

Definition bind {A B} (c : result A) (k : A → result B) : result B :=
  match c with
  | Ok a => k a
  | Raise e => Raise e
  | OutOfFuel => OutOfFuel
  end.

#[global] Instance result_ret : MRet result := @Ok.
#[global] Instance result_bind : MBind result := λ A B k c, bind c k.

Definition raises {A} (c : result A) : Prop := ∃ e, c = Raise e.

(** [d[k]] *)
Definition getitem `{Countable K} {V} (d : gmap K V) (k : K) : result V :=
  match d !! k with
  | Some v => Ok v
  | None => Raise KeyError
  end.

(** [l[0]] *)
Definition first {A} (l : list A) : result A :=
  match l with
  | x :: _ => Ok x
  | [] => Raise IndexError
  end.

(** [l.remove(x)]: drops the first occurrence, [ValueError] when absent. *)
Fixpoint list_remove `{EqDecision A} (x : A) (l : list A) : result (list A) :=
  match l with
  | [] => Raise ValueError
  | y :: l' =>
      if decide (x = y) then Ok l'
      else r ← list_remove x l'; Ok (y :: r)
  end.

(** [l[0:k]] and [l[k:]] for a Python integer [k]; a negative [k] counts
    from the end of the list. *)
Definition slice_to {A} (k : Z) (l : list A) : list A :=
  if 0 <=? k then take (Z.to_nat k) l
  else take (Z.to_nat (Z.of_nat (length l) + k)) l.

Definition slice_from {A} (k : Z) (l : list A) : list A :=
  if 0 <=? k then drop (Z.to_nat k) l
  else drop (Z.to_nat (Z.of_nat (length l) + k)) l.

(** [[x] * k]: the empty list when [k] is not positive. *)
Definition repeat_list {A} (x : A) (k : Z) : list A := replicate (Z.to_nat k) x.

(** [np.arange(lo, hi)] on integers. *)
Definition arange (lo hi : Z) : list Z := seqZ lo (hi - lo).

(** [sum(len(f) for f in fs)] *)
Definition sum_len {A} (fs : list (list A)) : Z :=
  foldr (λ f acc, Z.of_nat (length f) + acc) 0 fs.

Definition sumZ (l : list Z) : Z := foldr Z.add 0 l.

End Py.
Import Py.

(** ** sciris *)

Module Sciris.

(** [sc.mergedicts] applied to its arguments: starts from an empty dictionary and updates it
    with every argument in turn; [None] arguments are skipped, so entries of
    later arguments replace those of earlier ones. *)
Definition update {V} (out arg : gmap string V) : gmap string V := arg ∪ out.

Definition mergedicts {V} (args : list (option (gmap string V))) : gmap string V :=
  foldl (λ out arg, match arg with
                    | None => out
                    | Some d => update out d
                    end) ∅ args.

End Sciris.

(** ** [Pop.__init__]: the contact caps *)

Definition default_max_contacts : gmap string Z := {[ "W" := 20 ]}.

(** [self.max_contacts = sc.mergedicts(default_max_contacts, self.max_contacts)] *)
Definition init_max_contacts (max_contacts : option (gmap string Z)) : gmap string Z :=
  Sciris.mergedicts [Some default_max_contacts; max_contacts].

(** ** State passing *)

(** Code that threads a state of type [S] and may raise. *)
Definition ST (S A : Type) : Type := S → result (A * S).

#[global] Instance ST_ret {S} : MRet (ST S) := λ A a s, Ok (a, s).
#[global] Instance ST_bind {S} : MBind (ST S) := λ A B k c s,
  match c s with
  | Ok (a, s') => k a s'
  | Raise e => Raise e
  | OutOfFuel => OutOfFuel
  end.

Definition lift {S A} (c : result A) : ST S A := λ s,
  match c with
  | Ok a => Ok (a, s)
  | Raise e => Raise e
  | OutOfFuel => OutOfFuel
  end.

(** The code ends, with a value or an exception, from every state. *)
Definition finishes {S A} (c : ST S A) : Prop := ∀ s, c s ≠ OutOfFuel.

Definition raise {S A} (e : exception) : ST S A := λ _, Raise e.
Definition out_of_fuel {S A} : ST S A := λ _, OutOfFuel.

(** ** The pseudo-random generator (numpy.random) *)

Module Rng.

(** The generator: the stream of uniform variates it will produce and the
    position reached in it. *)
Record rng := { tape : nat → Q; pos : nat }.

Definition Qfrac (q : Q) : Q := (q - inject_Z (Qfloor q))%Q.

(** The next uniform variate of the interval [0, 1). *)
Definition random_sample : ST rng Q := λ g,
  Ok (Qfrac (tape g (pos g)), {| tape := tape g; pos := S (pos g) |}).

(** [sp.set_seed(seed)]: the generator restarts on the stream of the seed,
    whatever it was before. *)
Definition set_seed (stream : Z → nat → Q) (seed : Z) (_ : rng) : rng :=
  {| tape := stream seed; pos := 0 |}.

(** A uniform index below [n]. *)
Definition randint (n : nat) : ST rng nat :=
  u ← random_sample;
  mret (Z.to_nat (Qfloor (u * inject_Z (Z.of_nat n)))).

(** [np.random.choice(a)] *)
Definition choice {A} (a : list A) : ST rng A :=
  match a with
  | [] => raise ValueError
  | _ =>
      i ← randint (length a);
      match a !! i with
      | Some x => mret x
      | None => raise IndexError
      end
  end.

Definition sumQ (p : list Q) : Q := foldr Qplus 0%Q p.

(** The checks of [np.random.choice(a, p=p)] on [p]: no negative entry and
    a total of one. *)
Definition valid_probabilities (p : list Q) : bool :=
  forallb (Qle_bool 0) p && Qeq_bool (sumQ p) 1.

(** Inverse-CDF search: the first entry whose cumulated probability
    exceeds [u]. *)
Fixpoint searchsorted {A} (u acc : Q) (a : list A) (p : list Q) : option A :=
  match a, p with
  | x :: a', px :: p' =>
      if Qlt_le_dec u (acc + px) then Some x
      else searchsorted u (acc + px)%Q a' p'
  | _, _ => None
  end.

(** [np.random.choice(a, p=p)] *)
Definition choice_p {A} (a : list A) (p : list Q) : ST rng A :=
  match a with
  | [] => raise ValueError
  | _ =>
      if negb (length a =? length p)%nat then raise ValueError
      else if negb (valid_probabilities p) then raise ValueError
      else
        u ← random_sample;
        match searchsorted u 0 a p with
        | Some x => mret x
        | None => raise IndexError
        end
  end.

(** [w / np.sum(w)] on an integer array: the entries are not numbers when
    the total is zero. *)
Definition normalised (w : list Z) : option (list Q) :=
  if decide (sumZ w = 0) then None
  else Some (map (λ c, (inject_Z c / inject_Z (sumZ w))%Q) w).

(** [np.random.choice(a, p=w/np.sum(w))] *)
Definition choice_weighted {A} (a : list A) (w : list Z) : ST rng A :=
  match normalised w with
  | None => raise ValueError
  | Some p => choice_p a p
  end.

Definition swap {A} (i j : nat) (l : list A) : list A :=
  match l !! i, l !! j with
  | Some x, Some y => <[i := y]> (<[j := x]> l)
  | _, _ => l
  end.

(** [np.random.shuffle(l)]: for [i] from the last index down to 1, exchange
    entry [i] with a uniformly drawn entry at or below it. *)
Fixpoint shuffle_from {A} (i : nat) (l : list A) : ST rng (list A) :=
  match i with
  | O => mret l
  | S i' => j ← randint (S i); shuffle_from i' (swap i j l)
  end.

Definition shuffle {A} (l : list A) : ST rng (list A) :=
  shuffle_from (length l - 1) l.

End Rng.
Import Rng.

(** ** Configuration and data tables *)

(** The arguments of [Pop] that [generate] reads. *)
Record Config := {
  n : Z;
  with_school_types : bool;
  use_two_group_reduction : bool;
  ltcf_staff_age_min : Z;
  ltcf_staff_age_max : Z;
  (** the remaining arguments are only handed on to the assignment and
      contact routines *)
  passed_on : list (string * Q);
}.

(** The tables [generate] obtains from the data layer before it starts
    placing people (lines 133-292): the 18-bracket age distribution, the
    estimated share of facility users per age bracket, and the facility
    size and resident-to-staff ratio tables. *)
Record Tables := {
  age_distr_18 : gmap Z Q;
  age_brackets_18 : gmap Z (list Z);
  age_by_brackets_dic_18 : gmap Z Z;
  est_ltcf_user_by_age_brackets_perc : gmap string Q;
  age_distr_16 : gmap Z Q;
  age_brackets_16 : gmap Z (list Z);
  age_by_brackets_dic_16 : gmap Z Z;
  KC_resident_size_distr : gmap Z Q;
  KC_residents_size_brackets : gmap Z (list Z);
  KC_ratio_distr : gmap Z Q;
  KC_ratio_brackets : gmap Z (list Q);
}.

(** [sorted([k for k in d.keys()])] and [[d[k] for k in keys]] *)
Definition sorted_keys {V} (d : gmap Z V) : list Z :=
  merge_sort Z.le (elements (dom d)).

Definition values_at {V} (d : gmap Z V) (keys : list Z) : result (list V) :=
  mapM (getitem d) keys.

(** [x / y] on floats, with Python's [ZeroDivisionError]. *)
Definition fdiv (x y : Q) : result Q :=
  if Qeq_bool y 0 then Raise ZeroDivisionError else Ok (x / y)%Q.

(** ** Facility residents (lines 254-316) *)

(** The key of the usage table that the branch for age [a] reads. *)
Definition ltcf_usage_key (a : Z) : string :=
  if a <? 65 then "60-64"
  else if a <? 75 then "70-74"
  else if a <? 85 then "80-84"
  else "85-100".

(** [expected_users_by_age[a]] for one age of [range(60, 101)]. *)
Definition expected_users (t : Tables) (n a : Z) : result Z :=
  b ← getitem (age_by_brackets_dic_18 t) a;
  p ← getitem (age_distr_18 t) b;
  bracket ← getitem (age_brackets_18 t) b;
  x ← fdiv (inject_Z n * p) (inject_Z (Z.of_nat (length bracket)));
  perc ← getitem (est_ltcf_user_by_age_brackets_perc t) (ltcf_usage_key a);
  Ok (Qceiling (x * perc)).

(** [expected_users_by_age], in insertion order. *)
Definition expected_users_by_age (t : Tables) (n : Z) : result (list (Z * Z)) :=
  mapM (λ a, k ← expected_users t n a; Ok (a, k)) (arange 60 101).

(** [all_residents] before it is shuffled. *)
Definition residents_by_age (expected : list (Z * Z)) : list Z :=
  concat (map (λ ak, repeat_list ak.1 ak.2) expected).

(** The [while len(all_residents) > 0] loop: one facility per iteration. *)
Fixpoint place_residents (fuel : nat) (size_bracket_keys : list Z)
    (size_distr_array : list Q) (brackets : gmap Z (list Z))
    (all_residents : list Z) (facilities : list (list Z))
    : ST rng (list (list Z)) :=
  if 0 <? Z.of_nat (length all_residents) then
    match fuel with
    | O => out_of_fuel
    | S fuel' =>
        sb ← choice_p size_bracket_keys size_distr_array;
        sb_range ← lift (getitem brackets sb);
        size ← choice sb_range;
        let size := if Z.of_nat (length all_residents) <? size
                    then Z.of_nat (length all_residents) else size in
        let new_facility := slice_to size all_residents in
        place_residents fuel' size_bracket_keys size_distr_array brackets
          (slice_from size all_residents) (facilities ++ [new_facility])
    end
  else mret facilities.

(** Lines 254-316: the residents of every facility, by age. *)
Definition make_facilities (fuel : nat) (t : Tables) (n : Z)
    : ST rng (list (Z * Z) * list (list Z)) :=
  expected ← lift (expected_users_by_age t n);
  all_residents ← shuffle (residents_by_age expected);
  let size_bracket_keys := sorted_keys (KC_resident_size_distr t) in
  size_distr_array ← lift (values_at (KC_resident_size_distr t) size_bracket_keys);
  facilities ← place_residents fuel size_bracket_keys size_distr_array
                 (KC_residents_size_brackets t) all_residents [];
  mret (expected, facilities).

(** [n_nonltcf = n - np.sum([len(f) for f in facilities])] *)
Definition n_nonltcf (n : Z) (facilities : list (list Z)) : Z :=
  n - sum_len facilities.

(** ** The potential-worker pools *)

(** The three dictionaries every workforce stage reads and updates:
    potential workers by uid, their uids by age, and the number of workers
    still to assign per age. *)
Record Pools := {
  potential_worker_uids : gmap Z Z;
  potential_worker_uids_by_age : gmap Z (list Z);
  workers_by_age_to_assign_count : gmap Z Z;
}.

(** No counter of workers still to assign is negative. *)
Definition counts_nonneg (p : Pools) : Prop :=
  ∀ a c, workers_by_age_to_assign_count p !! a = Some c → 0 ≤ c.

(** The number of potential workers on offer over the ages of a range. *)
Definition supply (staff_age_range : list Z) (by_age : gmap Z (list Z)) : nat :=
  sum_list (map (λ a, length (default [] (by_age !! a))) staff_age_range).

Definition pool_supply (staff_age_range : list Z) (p : Pools) : nat :=
  supply staff_age_range (potential_worker_uids_by_age p).

(** ** Facility residents leave the pools (lines 396-403) *)

(** The body of the inner loop, for one resident [uid]. *)
Definition remove_resident (age_by_uid_dic : gmap Z Z) (p : Pools) (uid : Z)
    : result Pools :=
  aindex ← getitem age_by_uid_dic uid;
  if decide (is_Some (potential_worker_uids p !! uid)) then
    uids ← getitem (potential_worker_uids_by_age p) aindex;
    uids' ← list_remove uid uids;
    count ← getitem (workers_by_age_to_assign_count p) aindex;
    Ok {| potential_worker_uids := delete uid (potential_worker_uids p);
          potential_worker_uids_by_age :=
            <[aindex := uids']> (potential_worker_uids_by_age p);
          workers_by_age_to_assign_count :=
            if 0 <? count
            then <[aindex := count - 1]> (workers_by_age_to_assign_count p)
            else workers_by_age_to_assign_count p |}
  else Ok p.

(** [for uid in fc] and [for nf, fc in enumerate(facilities_by_uids)] *)
Fixpoint remove_residents_of (age_by_uid_dic : gmap Z Z) (p : Pools)
    (fc : list Z) : result Pools :=
  match fc with
  | [] => Ok p
  | uid :: fc' =>
      p' ← remove_resident age_by_uid_dic p uid;
      remove_residents_of age_by_uid_dic p' fc'
  end.

Fixpoint remove_residents (age_by_uid_dic : gmap Z Z) (p : Pools)
    (facilities_by_uids : list (list Z)) : result Pools :=
  match facilities_by_uids with
  | [] => Ok p
  | fc :: rest =>
      p' ← remove_residents_of age_by_uid_dic p fc;
      remove_residents age_by_uid_dic p' rest
  end.

(** ** Facility staff (lines 419-454) *)

(** [np.mean(sb_range)]; the mean of an empty range is not a number. *)
Definition mean (l : list Q) : option Q :=
  match l with
  | [] => None
  | _ => Some (sumQ l / inject_Z (Z.of_nat (length l)))%Q
  end.

(** [int(math.ceil(n_residents / resident_staff_ratio))] once the sampled
    ratio has been divided by 3.  Dividing by a zero ratio gives an
    infinity, or no number at all for an empty facility, and [math.ceil]
    refuses both. *)
Definition staff_needed (n_residents : Z) (ratio : option Q) : result Z :=
  match ratio with
  | None => Raise ValueError
  | Some r =>
      let resident_staff_ratio := (r / 3)%Q in
      if Qeq_bool resident_staff_ratio 0 then
        if decide (n_residents = 0) then Raise ValueError else Raise OverflowError
      else Ok (Qceiling (inject_Z n_residents / resident_staff_ratio))
  end.

(** One iteration of [for i in range(n_staff)]: draw an age of the staff
    range in proportion to the workers still to assign, take the first
    potential worker of that age, and remove the worker from the pools. *)
Definition draw_staff_member (staff_age_range : list Z) (p : Pools)
    : ST rng ((Z * Z) * Pools) :=
  a_prob ← lift (values_at (workers_by_age_to_assign_count p) staff_age_range);
  aindex ← choice_weighted staff_age_range a_prob;
  uids ← lift (getitem (potential_worker_uids_by_age p) aindex);
  uid ← lift (first uids);
  uids' ← lift (list_remove uid uids);
  count ← lift (getitem (workers_by_age_to_assign_count p) aindex);
  mret ((aindex, uid),
        {| potential_worker_uids := delete uid (potential_worker_uids p);
           potential_worker_uids_by_age :=
             <[aindex := uids']> (potential_worker_uids_by_age p);
           workers_by_age_to_assign_count :=
             <[aindex := count - 1]> (workers_by_age_to_assign_count p) |}).

(** [for i in range(n_staff)], returning [new_staff] and [new_staff_uids]. *)
Fixpoint draw_staff (n_staff : nat) (staff_age_range : list Z) (p : Pools)
    (new_staff new_staff_uids : list Z) : ST rng ((list Z * list Z) * Pools) :=
  match n_staff with
  | O => mret ((new_staff, new_staff_uids), p)
  | S k =>
      '((aindex, uid), p') ← draw_staff_member staff_age_range p;
      draw_staff k staff_age_range p' (new_staff ++ [aindex]) (new_staff_uids ++ [uid])
  end.

(** The resident-to-staff ratio sampled for one facility. *)
Definition sample_ratio (sorted_ratio_keys : list Z) (sorted_ratio_array : list Q)
    (ratio_brackets : gmap Z (list Q)) : ST rng (option Q) :=
  sb ← choice_p sorted_ratio_keys sorted_ratio_array;
  sb_range ← lift (getitem ratio_brackets sb);
  mret (mean sb_range).

(** The body of [for nf, fc in enumerate(facilities)]. *)
Definition staff_facility (sorted_ratio_keys : list Z) (sorted_ratio_array : list Q)
    (ratio_brackets : gmap Z (list Q)) (staff_age_range : list Z)
    (p : Pools) (fc : list Z) : ST rng ((list Z * list Z) * Pools) :=
  let n_residents := Z.of_nat (length fc) in
  resident_staff_ratio ← sample_ratio sorted_ratio_keys sorted_ratio_array ratio_brackets;
  n_staff ← lift (staff_needed n_residents resident_staff_ratio);
  draw_staff (Z.to_nat n_staff) staff_age_range p [] [].

Fixpoint staff_facilities (sorted_ratio_keys : list Z) (sorted_ratio_array : list Q)
    (ratio_brackets : gmap Z (list Q)) (staff_age_range : list Z)
    (p : Pools) (facilities : list (list Z))
    (facilities_staff facilities_staff_uids : list (list Z))
    : ST rng ((list (list Z) * list (list Z)) * Pools) :=
  match facilities with
  | [] => mret ((facilities_staff, facilities_staff_uids), p)
  | fc :: rest =>
      '((new_staff, new_staff_uids), p') ←
        staff_facility sorted_ratio_keys sorted_ratio_array ratio_brackets
          staff_age_range p fc;
      staff_facilities sorted_ratio_keys sorted_ratio_array ratio_brackets
        staff_age_range p' rest
        (facilities_staff ++ [new_staff]) (facilities_staff_uids ++ [new_staff_uids])
  end.

(** Lines 419-454. *)
Definition assign_facility_staff (cfg : Config) (t : Tables) (p : Pools)
    (facilities : list (list Z))
    : ST rng ((list (list Z) * list (list Z)) * Pools) :=
  let sorted_ratio_keys := sorted_keys (KC_ratio_distr t) in
  sorted_ratio_array ← lift (values_at (KC_ratio_distr t) sorted_ratio_keys);
  let staff_age_range := arange (ltcf_staff_age_min cfg) (ltcf_staff_age_max cfg + 1) in
  staff_facilities sorted_ratio_keys sorted_ratio_array (KC_ratio_brackets t)
    staff_age_range p facilities [] [].

(** The staff [su] of the facility [fc] was sized from a bracket [sb] that
    the ratio distribution [distr] gives a positive probability. *)
Definition staffed_by (distr : gmap Z Q) (brackets : gmap Z (list Q))
    (fc su : list Z) : Prop :=
  ∃ sb prob sb_range n_staff,
    distr !! sb = Some prob ∧ (0 < prob)%Q
    ∧ brackets !! sb = Some sb_range
    ∧ staff_needed (Z.of_nat (length fc)) (mean sb_range) = Ok n_staff
    ∧ length su = Z.to_nat n_staff.

(** Well-formed tables: every facility size of the size table is at least
    1, and every resident-to-staff ratio of the ratio table is positive. *)
Definition sizes_at_least_one (t : Tables) : Prop :=
  map_Forall (λ _ sb_range, Forall (λ size, 1 ≤ size) sb_range)
    (KC_residents_size_brackets t).

Definition ratios_positive (t : Tables) : Prop :=
  map_Forall (λ _ sb_range, Forall (λ ratio, (0 < ratio)%Q) sb_range)
    (KC_ratio_brackets t).

(** ** The age counts left for households (lines 318-332) *)

(** [int(x)] on a float: truncation towards zero. *)
Definition truncate (x : Q) : Z :=
  if Qlt_le_dec x 0 then Qceiling x else Qfloor x.

Definition expected_age_count (t : Tables) (n a : Z) : result Z :=
  b ← getitem (age_by_brackets_dic_16 t) a;
  p ← getitem (age_distr_16 t) b;
  bracket ← getitem (age_brackets_16 t) b;
  expected_age_distr ← fdiv p (inject_Z (Z.of_nat (length bracket)));
  Ok (truncate (inject_Z n * expected_age_distr)).

(** [ltcf_adjusted_age_count]: the expected count of every age from 0 to
    100, less the facility users of that age. *)
Definition ltcf_adjusted_age_count (t : Tables) (n : Z) (expected : list (Z * Z))
    : result (gmap Z Z) :=
  counts ← mapM (λ a, c ← expected_age_count t n a; Ok (a, c)) (arange 0 101);
  Ok (foldl (λ m ak, alter (λ c, c - ak.2) ak.1 m)
        (list_to_map counts : gmap Z Z) expected).

(** ** The population dictionary *)

(** One record of the population dictionary; [C] is the type of a contact
    collection, a set when [generate] returns and a list once [__init__]
    has converted it. *)
Record Person (C : Type) := {
  uid : Z;
  age : Z;
  sex : Z;
  hhid : option Z;
  scid : option Z;
  sc_type : option string;
  wpid : option Z;
  snfid : option Z;
  contacts : gmap string C;
}.
Arguments uid {C}.
Arguments age {C}.
Arguments sex {C}.
Arguments hhid {C}.
Arguments scid {C}.
Arguments sc_type {C}.
Arguments wpid {C}.
Arguments snfid {C}.
Arguments contacts {C}.

(** ** The routines of the other modules *)

Record Enrolment := {
  uids_in_school : gmap Z Z;
  uids_in_school_by_age : gmap Z (list Z);
  ages_in_school_count : gmap Z Z;
}.

Record Schools := {
  syn_schools : list (list Z);
  syn_school_uids : list (list Z);
  syn_school_types : list (option string);
}.

(** The keyword arguments of [make_contacts_from_microstructure_objects]
    that carry groups of people. *)
Record Microstructure := {
  age_by_uid_dic : gmap Z Z;
  homes_by_uids : list (list Z);
  schools_by_uids : list (list Z);
  teachers_by_uids : list (list Z);
  non_teaching_staff_uids : list (list Z);
  workplaces_by_uids : list (list Z);
  facilities_by_uids : list (list Z);
  facilities_staff_uids : list (list Z);
}.

(** What [generate] calls in [spb], [spcnx] and [spsm].  Each routine may
    sample and may raise; the tables it reads from the data layer are part
    of it. *)
Record Externals := {
  norm_dic : gmap Z Z → gmap Z Q;
  generate_household_sizes_from_fixed_pop_size : Z → ST rng (list Z);
  custom_generate_all_households : Z → list Z → list Q → ST rng (list (list Z));
  assign_uids_by_homes : list (list Z) → ST rng (list (list Z) * gmap Z Z);
  get_ids_by_age_dic : gmap Z Z → gmap Z (list Z);
  get_uids_in_school : Z → gmap Z Z → list (list Z) → ST rng Enrolment;
  send_students_to_school_with_school_types : Enrolment → ST rng Schools;
  generate_school_sizes : Enrolment → ST rng (list Z);
  send_students_to_school : list Z → Enrolment → ST rng Schools;
  get_uids_potential_workers :
    list (list Z) → gmap Z Z → ST rng (gmap Z Z * gmap Z (list Z) * gmap Z Z);
  get_workers_by_age_to_assign : gmap Z Z → gmap Z (list Z) → gmap Z Z;
  assign_teachers_to_schools :
    Config → Schools → Pools → gmap Z Z → ST rng (list (list Z) * list (list Z) * Pools);
  assign_additional_staff_to_schools :
    Config → list (list Z) → list (list Z) → Pools → gmap Z Z
    → ST rng (list (list Z) * Pools);
  generate_workplace_sizes : gmap Z Z → ST rng (list Z);
  assign_rest_of_workers :
    list Z → Pools → gmap Z Z → ST rng (list (list Z) * list (list Z) * Pools);
  make_contacts_from_microstructure_objects :
    Config → Microstructure → ST rng (gmap Z (Person (gset Z)));
}.

(** ** The stages of [generate], in program order *)

Inductive stage :=
  | FacilityResidents
  | Households
  | SchoolStudents
  | PotentialWorkers
  | ResidentsLeavePools
  | Teachers
  | NonTeachingStaff
  | FacilityStaff
  | Workplaces
  | ContactGraph.

#[global] Instance stage_eq_dec : EqDecision stage.
Proof. solve_decision. Defined.

(** A stage was entered; [ev_pool] is the dictionary of potential workers
    at that moment (empty before line 392 has created it). *)
Record event := { ev_stage : stage; ev_pool : gmap Z Z }.

Record world := { gen : rng; trace : list event }.

(** Run a sampling routine on the generator of the world. *)
Definition zoom {A} (c : ST rng A) : ST world A := λ w,
  match c (gen w) with
  | Ok (a, g') => Ok (a, {| gen := g'; trace := trace w |})
  | Raise e => Raise e
  | OutOfFuel => OutOfFuel
  end.

Definition enter (s : stage) (pool : gmap Z Z) : ST world unit := λ w,
  Ok (tt, {| gen := gen w;
             trace := trace w ++ [{| ev_stage := s; ev_pool := pool |}] |}).


(** The school routines only take people out of the dictionary of
    potential workers. *)
Definition never_adds_workers (ext : Externals) : Prop :=
  (∀ cfg schools p left g out p' g',
     assign_teachers_to_schools ext cfg schools p left g = Ok (out, p', g') →
     ∀ uid, potential_worker_uids p !! uid = None →
            potential_worker_uids p' !! uid = None)
  ∧ (∀ cfg students teachers p left g out p' g',
       assign_additional_staff_to_schools ext cfg students teachers p left g
         = Ok (out, p', g') →
       ∀ uid, potential_worker_uids p !! uid = None →
              potential_worker_uids p' !! uid = None).

(** ** [Pop.generate] *)

(** The local variables of [generate] that are live when line 490 has
    run. *)
Record Frame := {
  fr_expected_users_by_age : list (Z * Z);
  fr_facilities : list (list Z);
  fr_hh_sizes : list Z;
  fr_homes : list (list Z);
  fr_groups : Microstructure;
  fr_facilities_staff : list (list Z);
  fr_pools : Pools;
  popdict : gmap Z (Person (gset Z));
}.

(** Lines 359-386: who goes to which school. *)
Definition assign_students (cfg : Config) (ext : Externals) (n_nonltcf : Z)
    (age_by_uid : gmap Z Z) (homes_by_uids : list (list Z)) : ST rng Schools :=
  enrolment ← get_uids_in_school ext n_nonltcf age_by_uid homes_by_uids;
  if with_school_types cfg then
    send_students_to_school_with_school_types ext enrolment
  else
    syn_school_sizes ← generate_school_sizes ext enrolment;
    send_students_to_school ext syn_school_sizes enrolment.

(** Lines 254-490 of [generate]. *)
Definition generate_body (cfg : Config) (t : Tables) (ext : Externals)
    (fuel : nat) : ST world Frame :=
  let n := n cfg in
  (* facilities: lines 254-316 *)
  _ ← enter FacilityResidents ∅;
  '(expected, facilities) ← zoom (make_facilities fuel t n);
  adjusted ← lift (ltcf_adjusted_age_count t n expected);
  ltcf_adjusted_age_distr ←
    lift (values_at (norm_dic ext adjusted) (arange 0 101));
  let n_nonltcf := n_nonltcf n facilities in
  (* households: lines 342-357 *)
  _ ← enter Households ∅;
  hh_sizes ← zoom (generate_household_sizes_from_fixed_pop_size ext n_nonltcf);
  homes ← zoom (custom_generate_all_households ext n_nonltcf hh_sizes
                  ltcf_adjusted_age_distr);
  let homes := facilities ++ homes in
  '(homes_by_uids, age_by_uid) ← zoom (assign_uids_by_homes ext homes);
  let facilities_by_uids :=
    slice_to (Z.of_nat (length facilities)) homes_by_uids in
  let uids_by_age_dic := get_ids_by_age_dic ext age_by_uid in
  (* schools: lines 359-386 *)
  _ ← enter SchoolStudents ∅;
  schools ← zoom (assign_students cfg ext n_nonltcf age_by_uid homes_by_uids);
  (* workforce: lines 388-467 *)
  _ ← enter PotentialWorkers ∅;
  '(pw_uids, pw_uids_by_age, pw_ages_left_count) ←
    zoom (get_uids_potential_workers ext (syn_school_uids schools) age_by_uid);
  let p := {| potential_worker_uids := pw_uids;
              potential_worker_uids_by_age := pw_uids_by_age;
              workers_by_age_to_assign_count :=
                get_workers_by_age_to_assign ext pw_ages_left_count uids_by_age_dic |} in
  _ ← enter ResidentsLeavePools (potential_worker_uids p);
  p ← lift (remove_residents age_by_uid p facilities_by_uids);
  _ ← enter Teachers (potential_worker_uids p);
  '(syn_teachers, syn_teacher_uids, p) ←
    zoom (assign_teachers_to_schools ext cfg schools p pw_ages_left_count);
  _ ← enter NonTeachingStaff (potential_worker_uids p);
  '(syn_non_teaching_staff_uids, p) ←
    zoom (assign_additional_staff_to_schools ext cfg (syn_school_uids schools)
            syn_teacher_uids p pw_ages_left_count);
  _ ← enter FacilityStaff (potential_worker_uids p);
  '(facilities_staff, facilities_staff_uids, p) ←
    zoom (assign_facility_staff cfg t p facilities);
  _ ← enter Workplaces (potential_worker_uids p);
  workplace_sizes ←
    zoom (generate_workplace_sizes ext (workers_by_age_to_assign_count p));
  '(syn_workplaces, syn_workplace_uids, p) ←
    zoom (assign_rest_of_workers ext workplace_sizes p age_by_uid);
  let homes_by_uids :=
    slice_from (Z.of_nat (length facilities_by_uids)) homes_by_uids in
  (* contacts: lines 472-490 *)
  _ ← enter ContactGraph (potential_worker_uids p);
  let groups := {| age_by_uid_dic := age_by_uid;
                   homes_by_uids := homes_by_uids;
                   schools_by_uids := syn_school_uids schools;
                   teachers_by_uids := syn_teacher_uids;
                   non_teaching_staff_uids := syn_non_teaching_staff_uids;
                   workplaces_by_uids := syn_workplace_uids;
                   facilities_by_uids := facilities_by_uids;
                   facilities_staff_uids := facilities_staff_uids |} in
  popdict ← zoom (make_contacts_from_microstructure_objects ext cfg groups);
  mret {| fr_expected_users_by_age := expected;
          fr_facilities := facilities;
          fr_hh_sizes := hh_sizes;
          fr_homes := homes;
          fr_groups := groups;
          fr_facilities_staff := facilities_staff;
          fr_pools := p;
          popdict := popdict |}.

(** The population dictionaries that a name of the frame can denote at
    line 492.  [popdict] is the only local that holds one; the names of the
    module ([sc], [sp], [log], [cfg], [Pop]) and the built-in names do not
    include [population]. *)
Definition names_at_return (f : Frame) : gmap string (gmap Z (Person (gset Z))) :=
  {[ "popdict" := popdict f ]}.

Definition load_name {V} (name : string) (names : gmap string V) : result V :=
  match names !! name with
  | Some v => Ok v
  | None => Raise (NameError name)
  end.

(** [generate]: the body, then [return population]. *)
Definition generate (cfg : Config) (t : Tables) (ext : Externals) (fuel : nat)
    : ST world (gmap Z (Person (gset Z))) :=
  f ← generate_body cfg t ext fuel;
  lift (load_name "population" (names_at_return f)).

(** ** [Pop.__init__] *)

(** The attributes of the object that the claims are about. *)
Record Pop := {
  self_n : Z;
  self_max_contacts : gmap string Z;
  self_popdict : gmap Z (Person (list Z));
}.

(** Lines 117-120: every contact set becomes a list. *)
Definition change_types (population : gmap Z (Person (gset Z)))
    : gmap Z (Person (list Z)) :=
  (λ person, {| uid := uid person; age := age person; sex := sex person;
                hhid := hhid person; scid := scid person;
                sc_type := sc_type person; wpid := wpid person;
                snfid := snfid person;
                contacts := elements <$> contacts person |}) <$> population.

(** Lines 88-95: seed the generator when a seed is given. *)
Definition init_seed (stream : Z → nat → Q) (rand_seed : option Z) : ST world unit :=
  λ w, match rand_seed with
       | Some seed => Ok (tt, {| gen := set_seed stream seed (gen w); trace := trace w |})
       | None => Ok (tt, w)
       end.

Definition Pop_init (stream : Z → nat → Q) (cfg : Config)
    (max_contacts : option (gmap string Z)) (rand_seed : option Z)
    (t : Tables) (ext : Externals) (fuel : nat) : ST world Pop :=
  _ ← init_seed stream rand_seed;
  let max_contacts := init_max_contacts max_contacts in
  population ← generate cfg t ext fuel;
  mret {| self_n := n cfg;
          self_max_contacts := max_contacts;
          self_popdict := change_types population |}.

(** ** Household sizes *)

(** The sampling loop of [spec_generate_household_sizes]. *)
Fixpoint household_sizes_loop (fuel : nat) (size_keys : list Z) (size_probs : list Q)
    (remaining : Z) (hh_sizes : list Z) : ST rng (list Z) :=
  if remaining <=? 0 then mret hh_sizes
  else
    match fuel with
    | O => out_of_fuel
    | S fuel' =>
        sampled ← choice_p size_keys size_probs;
        let size := Z.max 1 (Z.min sampled remaining) in
        household_sizes_loop fuel' size_keys size_probs (remaining - size)
          (hh_sizes ++ [size])
    end.

(** Modelled from the spec: [spcnx.generate_household_sizes_from_fixed_pop_size],
    which is not among the sources.  Section 4.3: "sample a sequence of
    household sizes summing to the remaining (non-facility) population
    count", "households are not sized to exceed remaining population; the
    last household absorbs any remainder"; section 3: a household has
    "size ≥ 1".  No sequence of sizes sums to a negative count, so the
    routine raises there. *)
Definition spec_generate_household_sizes (household_size_distr : gmap Z Q)
    (n_nonltcf : Z) : ST rng (list Z) :=
  if n_nonltcf <? 0 then raise ValueError
  else
    let size_keys := sorted_keys household_size_distr in
    size_probs ← lift (values_at household_size_distr size_keys);
    household_sizes_loop (Z.to_nat n_nonltcf) size_keys size_probs n_nonltcf [].

(** ** The contact graph *)

Definition layer_keys : list string := ["H"; "S"; "W"; "LTCF"; "C"].

(** The contacts of a person in one layer. *)
Definition contacts_in (layer : string) (person : Person (gset Z)) : gset Z :=
  default ∅ (contacts person !! layer).

Definition contact_list (layer : string) (person : Person (list Z)) : list Z :=
  default [] (contacts person !! layer).

Fixpoint foldlM {A B} (f : A → B → result A) (a : A) (l : list B) : result A :=
  match l with
  | [] => Ok a
  | x :: l' => a' ← f a x; foldlM f a' l'
  end.

Definition new_person (u a s : Z) : Person (gset Z) :=
  {| uid := u; age := a; sex := s; hhid := None; scid := None; sc_type := None;
     wpid := None; snfid := None;
     contacts := list_to_map ((λ k, (k, ∅)) <$> layer_keys) |}.

(** [popdict[u]['contacts'][layer].add(v)] *)
Definition add_contact (layer : string) (u v : Z)
    (pop : gmap Z (Person (gset Z))) : result (gmap Z (Person (gset Z))) :=
  person ← getitem pop u;
  Ok (<[u := {| uid := uid person; age := age person; sex := sex person;
                hhid := hhid person; scid := scid person;
                sc_type := sc_type person; wpid := wpid person;
                snfid := snfid person;
                contacts := <[layer := {[v]} ∪ contacts_in layer person]>
                              (contacts person) |}]> pop).

(** An edge is stored at both of its endpoints. *)
Definition add_edge (layer : string) (pop : gmap Z (Person (gset Z)))
    (e : Z * Z) : result (gmap Z (Person (gset Z))) :=
  pop' ← add_contact layer e.1 e.2 pop;
  add_contact layer e.2 e.1 pop'.

(** Every pair of distinct members of a group, once. *)
Fixpoint pairs (members : list Z) : list (Z * Z) :=
  match members with
  | [] => []
  | u :: rest => ((λ v, (u, v)) <$> filter (λ v, v ≠ u) rest) ++ pairs rest
  end.

(** Keep every edge of a group that is within the cap; thin the edges of a
    larger group out at random, to [cap] contacts per member on average. *)
Fixpoint thin_out (keep : Q) (edges : list (Z * Z)) : ST rng (list (Z * Z)) :=
  match edges with
  | [] => mret []
  | e :: rest =>
      u ← random_sample;
      kept ← thin_out keep rest;
      mret (if Qlt_le_dec u keep then e :: kept else kept)
  end.

Definition subsample (cap : option Z) (members : list Z)
    (edges : list (Z * Z)) : ST rng (list (Z * Z)) :=
  match cap with
  | None => mret edges
  | Some c =>
      if Z.of_nat (length members) - 1 <=? c then mret edges
      else thin_out (inject_Z c / inject_Z (Z.of_nat (length members) - 1)) edges
  end.

Definition connect_group (layer : string) (cap : option Z)
    (pop : gmap Z (Person (gset Z))) (members : list Z)
    : ST rng (gmap Z (Person (gset Z))) :=
  edges ← subsample cap members (pairs members);
  lift (foldlM (add_edge layer) pop edges).

Fixpoint connect_groups (layer : string) (cap : option Z)
    (pop : gmap Z (Person (gset Z))) (groups : list (list Z))
    : ST rng (gmap Z (Person (gset Z))) :=
  match groups with
  | [] => mret pop
  | members :: rest =>
      pop' ← connect_group layer cap pop members;
      connect_groups layer cap pop' rest
  end.

(** Record the group every member belongs to. *)
Definition set_group (set : Z → Person (gset Z) → Person (gset Z))
    (pop : gmap Z (Person (gset Z))) (groups : list (list Z))
    : result (gmap Z (Person (gset Z))) :=
  foldlM (λ pop im,
            foldlM (λ pop u, person ← getitem pop u;
                             Ok (<[u := set (Z.of_nat im.1) person]> pop))
                   pop im.2)
         pop (imap pair groups).

Definition with_hhid (i : Z) (person : Person (gset Z)) : Person (gset Z) :=
  {| uid := uid person; age := age person; sex := sex person; hhid := Some i;
     scid := scid person; sc_type := sc_type person; wpid := wpid person;
     snfid := snfid person; contacts := contacts person |}.

Definition with_scid (i : Z) (person : Person (gset Z)) : Person (gset Z) :=
  {| uid := uid person; age := age person; sex := sex person; hhid := hhid person;
     scid := Some i; sc_type := sc_type person; wpid := wpid person;
     snfid := snfid person; contacts := contacts person |}.

Definition with_wpid (i : Z) (person : Person (gset Z)) : Person (gset Z) :=
  {| uid := uid person; age := age person; sex := sex person; hhid := hhid person;
     scid := scid person; sc_type := sc_type person; wpid := Some i;
     snfid := snfid person; contacts := contacts person |}.

Definition with_snfid (i : Z) (person : Person (gset Z)) : Person (gset Z) :=
  {| uid := uid person; age := age person; sex := sex person; hhid := hhid person;
     scid := scid person; sc_type := sc_type person; wpid := wpid person;
     snfid := Some i; contacts := contacts person |}.

(** The members of the [i]-th group of each of several families of groups:
    a school is its students, teachers and other staff; a facility is its
    residents and staff. *)
Fixpoint merge_groups (families : list (list (list Z))) : list (list Z) :=
  match families with
  | [] => []
  | [groups] => groups
  | groups :: rest =>
      let others := merge_groups rest in
      imap (λ i members, members ++ default [] (others !! i)) groups
  end.

(** One record per individual, without groups or contacts yet. *)
Fixpoint draw_people (ages : gmap Z Z) (uids : list Z)
    : ST rng (list (Z * Person (gset Z))) :=
  match uids with
  | [] => mret []
  | u :: rest =>
      s ← randint 2;
      others ← draw_people ages rest;
      mret ((u, new_person u (default 0 (ages !! u)) (Z.of_nat s)) :: others)
  end.

(** Modelled from the spec: [spcnx.make_contacts_from_microstructure_objects],
    which is not among the sources.  Section 4.6: "for every household,
    facility, school [...] and workplace, emits a fully-connected contact
    set among members, subject to a configurable maximum degree per layer
    (e.g., cap workplace contacts at [max_contacts['W']]) achieved by random
    sub-sampling of edges when a group exceeds the cap", for facilities "an
    optional two-group reduction mode" thins the contacts out, and
    "contact sets are mirrored across both endpoints".  Section 6: a record
    per individual with uid, age, sex, household, school, workplace and
    facility id.  The community layer gets no contacts here.  How the sex
    is chosen is not specified; it is drawn uniformly. *)
Definition spec_make_contacts (caps : gmap string Z) (ltcf_degree : Z)
    (cfg : Config) (groups : Microstructure)
    : ST rng (gmap Z (Person (gset Z))) :=
  let ages := age_by_uid_dic groups in
  people ← draw_people ages (sorted_keys ages);
  let pop : gmap Z (Person (gset Z)) := list_to_map people in
  let schools := merge_groups [schools_by_uids groups; teachers_by_uids groups;
                               non_teaching_staff_uids groups] in
  let facilities := merge_groups [facilities_by_uids groups;
                                  facilities_staff_uids groups] in
  pop ← lift (set_group with_hhid pop (homes_by_uids groups));
  pop ← lift (set_group with_scid pop schools);
  pop ← lift (set_group with_wpid pop (workplaces_by_uids groups));
  pop ← lift (set_group with_snfid pop facilities);
  pop ← connect_groups "H" (caps !! "H") pop (homes_by_uids groups);
  pop ← connect_groups "S" (caps !! "S") pop schools;
  pop ← connect_groups "W" (caps !! "W") pop (workplaces_by_uids groups);
  connect_groups "LTCF"
    (if use_two_group_reduction cfg then Some ltcf_degree else None)
    pop facilities.

(** [b] is among the contacts of [a] in a layer. *)
Definition linked (pop : gmap Z (Person (gset Z))) (layer : string) (a b : Z) : Prop :=
  ∃ person, pop !! a = Some person ∧ b ∈ contacts_in layer person.

Definition mirrored (pop : gmap Z (Person (gset Z))) : Prop :=
  ∀ layer a b, linked pop layer a b → linked pop layer b a.

Definition loop_free (pop : gmap Z (Person (gset Z))) : Prop :=
  ∀ layer a, ¬ linked pop layer a a.

(** ** Runs from a seed *)





(** ** A small world *)

(** Tables and routines small enough to run the pipeline on: forty people,
    two of them aged 100 and expected in a facility, everybody else aged 30
    and living in households of two, no school and no workplace. *)
Module Small.

Definition cfg : Config :=
  {| n := 40; with_school_types := false; use_two_group_reduction := true;
     ltcf_staff_age_min := 20; ltcf_staff_age_max := 60; passed_on := [] |}.

Definition tables : Tables :=
  {| age_distr_18 := {[ 0 := 0%Q; 1 := (1 # 10)%Q ]};
     age_brackets_18 := {[ 0 := seqZ 60 40; 1 := [100] ]};
     age_by_brackets_dic_18 :=
       <[100 := 1]> (list_to_map ((λ a, (a, 0)) <$> seqZ 60 40));
     est_ltcf_user_by_age_brackets_perc :=
       {[ "60-64" := (1 # 2)%Q; "70-74" := (1 # 2)%Q;
          "80-84" := (1 # 2)%Q; "85-100" := (1 # 2)%Q ]};
     age_distr_16 := {[ 0 := 1%Q ]};
     age_brackets_16 := {[ 0 := seqZ 0 101 ]};
     age_by_brackets_dic_16 := list_to_map ((λ a, (a, 0)) <$> seqZ 0 101);
     KC_resident_size_distr := {[ 0 := 1%Q ]};
     KC_residents_size_brackets := {[ 0 := [1; 2] ]};
     KC_ratio_distr := {[ 0 := 1%Q ]};
     KC_ratio_brackets := {[ 0 := [6%Q; 9%Q] ]} |}.

(** The same tables, with a size table that offers a facility size of 0. *)
Definition zero_size_tables : Tables :=
  {| age_distr_18 := age_distr_18 tables;
     age_brackets_18 := age_brackets_18 tables;
     age_by_brackets_dic_18 := age_by_brackets_dic_18 tables;
     est_ltcf_user_by_age_brackets_perc := est_ltcf_user_by_age_brackets_perc tables;
     age_distr_16 := age_distr_16 tables;
     age_brackets_16 := age_brackets_16 tables;
     age_by_brackets_dic_16 := age_by_brackets_dic_16 tables;
     KC_resident_size_distr := KC_resident_size_distr tables;
     KC_residents_size_brackets := {[ 0 := [0; 1] ]};
     KC_ratio_distr := KC_ratio_distr tables;
     KC_ratio_brackets := KC_ratio_brackets tables |}.

(** Uids are handed out home by home, counting from [next]. *)
Fixpoint number_homes (next : Z) (homes : list (list Z))
    : list (list Z) * gmap Z Z :=
  match homes with
  | [] => ([], ∅)
  | home :: rest =>
      let uids := seqZ next (Z.of_nat (length home)) in
      let '(others, ages) := number_homes (next + Z.of_nat (length home)) rest in
      (uids :: others, list_to_map (zip uids home) ∪ ages)
  end.

Definition uids_of_age (ages : gmap Z Z) (a : Z) : list Z :=
  filter (λ u, ages !! u = Some a) (sorted_keys ages).

Definition by_age (ages : gmap Z Z) : gmap Z (list Z) :=
  list_to_map ((λ a, (a, uids_of_age ages a)) <$> seqZ 0 101).

Definition no_schools : Schools :=
  {| syn_schools := []; syn_school_uids := []; syn_school_types := [] |}.

Definition ext : Externals :=
  {| norm_dic := λ counts, inject_Z <$> counts;
     generate_household_sizes_from_fixed_pop_size :=
       spec_generate_household_sizes {[ 2 := 1%Q ]};
     custom_generate_all_households := λ _ hh_sizes _,
       mret ((λ size, replicate (Z.to_nat size) 30) <$> hh_sizes);
     assign_uids_by_homes := λ homes, mret (number_homes 0 homes);
     get_ids_by_age_dic := by_age;
     get_uids_in_school := λ _ _ _,
       mret {| uids_in_school := ∅; uids_in_school_by_age := ∅;
               ages_in_school_count := ∅ |};
     send_students_to_school_with_school_types := λ _, mret no_schools;
     generate_school_sizes := λ _, mret [];
     send_students_to_school := λ _ _, mret no_schools;
     get_uids_potential_workers := λ _ ages,
       mret (ages, by_age ages, (λ uids, Z.of_nat (length uids)) <$> by_age ages);
     get_workers_by_age_to_assign := λ left _, left;
     assign_teachers_to_schools := λ _ _ p _, mret ([], [], p);
     assign_additional_staff_to_schools := λ _ _ _ p _, mret ([], p);
     generate_workplace_sizes := λ _, mret [];
     assign_rest_of_workers := λ _ p _, mret ([], [], p);
     make_contacts_from_microstructure_objects :=
       spec_make_contacts (init_max_contacts None) 20 |}.

(** One potential worker aged 30, and no worker left to assign at that
    age. *)
Definition idle_pools : Pools :=
  {| potential_worker_uids := {[ 7 := 30 ]};
     potential_worker_uids_by_age := {[ 30 := [7] ]};
     workers_by_age_to_assign_count := {[ 30 := 0 ]} |}.

(** A household of three: a worker, a teacher and a pupil. *)
Definition three_people : Microstructure :=
  {| age_by_uid_dic := {[ 0 := 30; 1 := 31; 2 := 8 ]};
     homes_by_uids := [[0; 1; 2]];
     schools_by_uids := [[2]];
     teachers_by_uids := [[1]];
     non_teaching_staff_uids := [[]];
     workplaces_by_uids := [[0]];
     facilities_by_uids := [];
     facilities_staff_uids := [] |}.

(** A generator stream per seed. *)
Definition stream (seed : Z) (i : nat) : Q := ((seed + 3 * Z.of_nat i) mod 7) # 7.

Definition world0 : world :=
  {| gen := {| tape := stream 1; pos := 0 |}; trace := [] |}.

End Small.

(** A positive share of facility users at an age is a positive share of the
    population of the 18-bracket table and a positive usage rate. *)
Definition positive_usage (t : Tables) (a : Z) : Prop :=
  ∃ b p bracket perc,
    age_by_brackets_dic_18 t !! a = Some b
    ∧ age_distr_18 t !! b = Some p ∧ (0 < p)%Q
    ∧ age_brackets_18 t !! b = Some bracket ∧ bracket ≠ []
    ∧ est_ltcf_user_by_age_brackets_perc t !! ltcf_usage_key a = Some perc
    ∧ (0 < perc)%Q.

(** ** More small worlds *)

Module Sample.

(** Tables in which every age from 60 to 100 has a small positive share of
    facility users. *)
Definition elderly_tables : Tables :=
  {| age_distr_18 := {[ 0 := (1 # 2)%Q ]};
     age_brackets_18 := {[ 0 := seqZ 60 41 ]};
     age_by_brackets_dic_18 := list_to_map ((λ a, (a, 0)) <$> seqZ 60 41);
     est_ltcf_user_by_age_brackets_perc :=
       {[ "60-64" := (1 # 10)%Q; "70-74" := (1 # 10)%Q;
          "80-84" := (1 # 10)%Q; "85-100" := (1 # 10)%Q ]};
     age_distr_16 := age_distr_16 Small.tables;
     age_brackets_16 := age_brackets_16 Small.tables;
     age_by_brackets_dic_16 := age_by_brackets_dic_16 Small.tables;
     KC_resident_size_distr := KC_resident_size_distr Small.tables;
     KC_residents_size_brackets := {[ 0 := [20; 30] ]};
     KC_ratio_distr := KC_ratio_distr Small.tables;
     KC_ratio_brackets := KC_ratio_brackets Small.tables |}.

(** Three potential workers, two aged 30 and one aged 41, all of them
    still to assign. *)
Definition staff_pools : Pools :=
  {| potential_worker_uids := {[ 7 := 30; 8 := 30; 9 := 41 ]};
     potential_worker_uids_by_age := {[ 30 := [7; 8]; 41 := [9] ]};
     workers_by_age_to_assign_count :=
       list_to_map ((λ a, (a, if decide (a = 30) then 2
                              else if decide (a = 41) then 1 else 0))
                    <$> seqZ 0 101) |}.

End Sample.

(** The potential workers on offer over the ages of a range, age by age. *)
Definition pool_uids (staff_age_range : list Z) (p : Pools) : list Z :=
  concat (map (λ a, default [] (potential_worker_uids_by_age p !! a)) staff_age_range).

(** ** The share of facility users (lines 136-245) *)

(** The cells of the facility table that lines 147 and 149 read, once
    [int] and [float] have parsed them: the number of users of a kind of
    facility and the percentage of them in an age bracket. *)
Record FacilityTable := {
  number_of_users : string → Z;
  percent_of_users : string → string → Q;
}.

Definition ltcf_age_bracket_keys : list string :=
  ["Under 65"; "65–74"; "75–84"; "85 and over"].

Definition facility_keys : list string :=
  ["Nursing home"; "Residential care community"].

(** Lines 144-149. *)
Definition facillity_users (df : FacilityTable) : gmap string (gmap string Q) :=
  list_to_map
    ((λ fk, (fk, <["Total" := inject_Z (number_of_users df fk)]>
                   (list_to_map ((λ ab, (ab, (percent_of_users df fk ab / 100)%Q))
                                 <$> ltcf_age_bracket_keys))))
     <$> facility_keys).

(** Lines 161-171: the census figures of 2018, as fractions. *)
Definition state_pop_2018 : Q := 7535591.

Definition state_age_distr_2018 : gmap string Q :=
  (λ percent, (percent / 100)%Q)
  <$> {[ "60-64" := (63 # 10)%Q; "65-74" := (95 # 10)%Q;
         "75-84" := (43 # 10)%Q; "85-100" := (18 # 10)%Q ]}.

(** Line 194: [pop = 2.25e6]. *)
Definition local_pop : Q := 2250000.

(** Lines 218-225: the bracket [b] that the [if] chain selects; when no
    branch matches, [b] keeps the value of the previous iteration. *)
Definition usage_bracket (ab : string) (b : option string) : option string :=
  if decide (ab = "Under 65") then Some "60-64"
  else if decide (ab = "65–74") then Some "65-74"
  else if decide (ab = "75–84") then Some "75-84"
  else if decide (ab = "85 and over") then Some "85-100"
  else b.

(** The body of the inner loop of lines 214-226 for one key [ab] of
    [facillity_users[fk]]. *)
Definition count_users (users : gmap string Q)
    (state : option string * gmap string Q) (ab : string)
    : result (option string * gmap string Q) :=
  if decide (ab = "Total") then Ok state
  else
    match usage_bracket ab state.1 with
    | None => Raise (NameError "b")
    | Some b =>
        so_far ← getitem state.2 b;
        share ← getitem users ab;
        total ← getitem users "Total";
        x ← fdiv (share * total * local_pop) state_pop_2018;
        Ok (Some b, <[b := (so_far + x)%Q]> state.2)
    end.

(** Lines 212-226: [est_seattle_users_2018]. *)
Definition est_seattle_users_2018 (df : FacilityTable) : result (gmap string Q) :=
  let users := facillity_users df in
  state ← foldlM (λ state fk,
                    users_fk ← getitem users fk;
                    foldlM (count_users users_fk) state
                      ("Total" :: ltcf_age_bracket_keys))
                 (None, list_to_map ((λ b, (b, 0%Q))
                                     <$> ["60-64"; "65-74"; "75-84"; "85-100"]))
                 facility_keys;
  Ok state.2.

(** Lines 234-245: [est_ltcf_user_by_age_brackets_perc], with the two
    ten-year brackets split into five-year brackets of the same rate. *)
Definition usage_rates (df : FacilityTable) : result (gmap string Q) :=
  est ← est_seattle_users_2018 df;
  perc ← foldlM (λ perc b,
                   users ← getitem est b;
                   share ← getitem state_age_distr_2018 b;
                   x ← fdiv users share;
                   y ← fdiv x local_pop;
                   Ok (<[b := y]> perc))
                ∅ ["60-64"; "65-74"; "75-84"; "85-100"];
  r65 ← getitem perc "65-74";
  let perc := <["65-69" := r65]> perc in
  r65 ← getitem perc "65-74";
  let perc := <["70-74" := r65]> perc in
  r75 ← getitem perc "75-84";
  let perc := <["75-79" := r75]> perc in
  r75 ← getitem perc "75-84";
  let perc := <["80-84" := r75]> perc in
  Ok (delete "75-84" (delete "65-74" perc)).

(** The users of an age bracket over all kinds of facility, as a number of
    people of the state. *)
Definition users_in_bracket (df : FacilityTable) (ab : string) : Q :=
  foldr (λ fk acc,
           (percent_of_users df fk ab / 100 * inject_Z (number_of_users df fk) + acc)%Q)
        0%Q facility_keys.

(** The bracket of the facility table and the share of the state's
    population behind each key of the usage rates. *)
Definition usage_sources : list (string * (string * Q)) :=
  [ ("60-64", ("Under 65", (63 # 1000)%Q));
    ("65-69", ("65–74", (95 # 1000)%Q));
    ("70-74", ("65–74", (95 # 1000)%Q));
    ("75-79", ("75–84", (43 # 1000)%Q));
    ("80-84", ("75–84", (43 # 1000)%Q));
    ("85-100", ("85 and over", (18 # 1000)%Q)) ].

(** A size that the facility size table offers. *)
Definition size_on_offer (brackets : gmap Z (list Z)) (size : Z) : Prop :=
  ∃ sb sb_range, brackets !! sb = Some sb_range ∧ size ∈ sb_range.

(* ================================================================== *)
(** * Properties *)
(* ================================================================== *)

(** ** Contact caps *)

Lemma init_max_contacts_None : init_max_contacts None = default_max_contacts.
Proof.
  unfold init_max_contacts, Sciris.mergedicts, Sciris.update. simpl.
  by rewrite (right_id_L ∅ (∪)).
Qed.

Lemma init_max_contacts_Some (d : gmap string Z) :
  init_max_contacts (Some d) = d ∪ default_max_contacts.
Proof.
  unfold init_max_contacts, Sciris.mergedicts, Sciris.update. simpl.
  by rewrite (right_id_L ∅ (∪)).
Qed.

Example max_contacts_override :
  init_max_contacts (Some {[ "W" := 5; "S" := 7 ]}) !! "W" = Some 5.
Proof. reflexivity. Qed.

(** C10: the workplace cap defaults to 20 when [max_contacts] is [None] or
    has no ["W"] entry; every entry the caller supplies wins over the
    default; and the merged dictionary always has a ["W"] entry. *)
Theorem max_contacts_default_W (mc : option (gmap string Z)) :
  ((mc = None ∨ ∃ d, mc = Some d ∧ d !! "W" = None) →
     init_max_contacts mc !! "W" = Some 20)
  ∧ (∀ d k v, mc = Some d → d !! k = Some v → init_max_contacts mc !! k = Some v)
  ∧ is_Some (init_max_contacts mc !! "W").
Proof.
  split; [|split].
  - intros [-> | (d & -> & Hd)].
    + by rewrite init_max_contacts_None.
    + rewrite init_max_contacts_Some. rewrite lookup_union_r; done.
  - intros d k v -> Hk. rewrite init_max_contacts_Some.
    by apply lookup_union_Some_l.
  - destruct mc as [d|].
    + rewrite init_max_contacts_Some, lookup_union.
      destruct (d !! "W"); simpl; eauto.
    + rewrite init_max_contacts_None. eauto.
Qed.

Lemma max_contacts_default_W_witness :
  init_max_contacts (Some {[ "S" := 7 ]}) !! "W" = Some 20
  ∧ init_max_contacts (Some {[ "S" := 7 ]}) !! "S" = Some 7.
Proof.
  destruct (max_contacts_default_W (Some {[ "S" := 7 ]})) as (Hdef & Hover & _).
  split.
  - apply Hdef. right. exists {[ "S" := 7 ]}. split; reflexivity.
  - apply (Hover {[ "S" := 7 ]}); reflexivity.
Defined.

(** ** Sequencing *)

Lemma bind_Ok {A B} (c : result A) (k : A → result B) (b : B) :
  c ≫= k = Ok b → ∃ a, c = Ok a ∧ k a = Ok b.
Proof. destruct c as [a| |]; simpl; [eauto | done | done]. Qed.

Lemma ST_bind_Ok {S A B} (c : ST S A) (k : A → ST S B) (s s' : S) (b : B) :
  (c ≫= k) s = Ok (b, s') → ∃ a s1, c s = Ok (a, s1) ∧ k a s1 = Ok (b, s').
Proof.
  unfold mbind, ST_bind. destruct (c s) as [[a s1]| |]; [eauto | done | done].
Qed.

Lemma ST_ret_Ok {S A} (a b : A) (s s' : S) :
  (mret a : ST S A) s = Ok (b, s') → b = a ∧ s' = s.
Proof. unfold mret, ST_ret. by intros [= -> ->]. Qed.

Lemma lift_Ok {S A} (c : result A) (s s' : S) (a : A) :
  lift c s = Ok (a, s') → c = Ok a ∧ s' = s.
Proof. destruct c; simpl; [by intros [= -> ->] | done | done]. Qed.

Lemma zoom_Ok {A} (c : ST rng A) (w w' : world) (a : A) :
  zoom c w = Ok (a, w') →
  ∃ g', c (gen w) = Ok (a, g') ∧ w' = {| gen := g'; trace := trace w |}.
Proof.
  unfold zoom. destruct (c (gen w)) as [[a' g']| |]; [|done|done].
  intros [= -> <-]. eauto.
Qed.

Lemma enter_Ok (s : stage) (pool : gmap Z Z) (w w' : world) (u : unit) :
  enter s pool w = Ok (u, w') →
  gen w' = gen w ∧ trace w' = trace w ++ [{| ev_stage := s; ev_pool := pool |}].
Proof. unfold enter. by intros [= _ <-]. Qed.

(** Peel the successful run of a sequence of statements apart. *)
Ltac run_inv H :=
  repeat match type of H with
  | (_ ≫= _) _ = Ok _ =>
      let a := fresh "a" in let s := fresh "s" in
      let H1 := fresh "Hrun" in
      apply ST_bind_Ok in H as (a & s & H1 & H)
  | _ ≫= _ = Ok _ =>
      let a := fresh "a" in let H1 := fresh "Hrun" in
      apply bind_Ok in H as (a & H1 & H)
  | (let 'pair _ _ := ?x in _) _ = Ok _ => destruct x
  | (match ?x with pair _ _ => _ end) _ = Ok _ => destruct x
  | (match ?x with pair _ _ => _ end) = Ok _ => destruct x
  end.

Lemma mapM_Ok {A B} (f : A → result B) (l : list A) (k : list B) :
  mapM f l = Ok k → Forall2 (λ x y, f x = Ok y) l k.
Proof.
  revert k. induction l as [|x l IH]; intros k H; simpl in H.
  - injection H as <-. constructor.
  - run_inv H. injection H as <-. constructor; auto.
Qed.

Lemma values_at_lookup {V} (d : gmap Z V) (keys : list Z) (vs : list V)
    (i : nat) (k : Z) (v : V) :
  values_at d keys = Ok vs → keys !! i = Some k → vs !! i = Some v →
  d !! k = Some v.
Proof.
  intros H Hk Hv. apply mapM_Ok in H.
  destruct (Forall2_lookup_l _ _ _ _ _ H Hk) as (v' & Hv' & Hget).
  rewrite Hv in Hv'. injection Hv' as <-.
  unfold getitem in Hget. destruct (d !! k); [by injection Hget as -> | done].
Qed.

Lemma values_at_length {V} (d : gmap Z V) (keys : list Z) (vs : list V) :
  values_at d keys = Ok vs → length vs = length keys.
Proof. intros H. apply mapM_Ok in H. symmetry. by eapply Forall2_length. Qed.

(** ** Code without loops ends *)

Lemma ST_bind_fuel {S A B} (c : ST S A) (k : A → ST S B) (s : S) :
  c s ≠ OutOfFuel → (∀ a s1, c s = Ok (a, s1) → k a s1 ≠ OutOfFuel) →
  (c ≫= k) s ≠ OutOfFuel.
Proof.
  intros Hc Hk. unfold mbind, ST_bind.
  destruct (c s) as [[a s1]| |]; [by apply Hk | done | done].
Qed.

Lemma finishes_bind {S A B} (c : ST S A) (k : A → ST S B) :
  finishes c → (∀ a, finishes (k a)) → finishes (c ≫= k).
Proof. intros Hc Hk s. apply ST_bind_fuel; [apply Hc | intros; apply Hk]. Qed.

Lemma finishes_ret {S A} (a : A) : finishes (mret a : ST S A).
Proof. by intros s. Qed.

Lemma finishes_raise {S A} (e : exception) : finishes (raise e : ST S A).
Proof. by intros s. Qed.

Lemma finishes_lift {S A} (c : result A) : c ≠ OutOfFuel → finishes (lift c : ST S A).
Proof. intros Hc s. by destruct c. Qed.

Lemma bind_fuel {A B} (c : result A) (k : A → result B) :
  c ≠ OutOfFuel → (∀ a, k a ≠ OutOfFuel) → c ≫= k ≠ OutOfFuel.
Proof. intros Hc Hk. destruct c; simpl; [apply Hk | done | done]. Qed.

Lemma getitem_fuel `{Countable K} {V} (d : gmap K V) (k : K) : getitem d k ≠ OutOfFuel.
Proof. unfold getitem. by destruct (d !! k). Qed.

Lemma first_fuel {A} (l : list A) : first l ≠ OutOfFuel.
Proof. by destruct l. Qed.

Lemma list_remove_fuel `{EqDecision A} (x : A) (l : list A) : list_remove x l ≠ OutOfFuel.
Proof.
  induction l as [|y l IH]; simpl; [done|].
  destruct (decide (x = y)); [done|]. by apply bind_fuel.
Qed.

Lemma mapM_fuel {A B} (f : A → result B) (l : list A) :
  (∀ x, f x ≠ OutOfFuel) → mapM f l ≠ OutOfFuel.
Proof.
  intros Hf. induction l as [|x l IH]; simpl; [done|].
  apply bind_fuel; [apply Hf|]. intros y. by apply bind_fuel.
Qed.

Lemma values_at_fuel {V} (d : gmap Z V) (keys : list Z) : values_at d keys ≠ OutOfFuel.
Proof. apply mapM_fuel. intros k. apply getitem_fuel. Qed.

Lemma finishes_random_sample : finishes random_sample.
Proof. by intros g. Qed.

Lemma finishes_randint (n : nat) : finishes (randint n).
Proof.
  apply finishes_bind; [apply finishes_random_sample|]. intros u. apply finishes_ret.
Qed.

Lemma finishes_choice {A} (a : list A) : finishes (choice a).
Proof.
  unfold choice. destruct a as [|x a]; [apply finishes_raise|].
  apply finishes_bind; [apply finishes_randint|]. intros i.
  destruct (_ !! i); [apply finishes_ret | apply finishes_raise].
Qed.

Lemma finishes_choice_p {A} (a : list A) (p : list Q) : finishes (choice_p a p).
Proof.
  unfold choice_p. destruct a as [|x a]; [apply finishes_raise|].
  destruct (negb _); [apply finishes_raise|].
  destruct (negb _); [apply finishes_raise|].
  apply finishes_bind; [apply finishes_random_sample|]. intros u.
  destruct (searchsorted _ _ _ _); [apply finishes_ret | apply finishes_raise].
Qed.

Lemma finishes_choice_weighted {A} (a : list A) (w : list Z) :
  finishes (choice_weighted a w).
Proof.
  unfold choice_weighted. destruct (normalised w);
    [apply finishes_choice_p | apply finishes_raise].
Qed.

(** ** Sampling *)

Lemma Qfrac_bounds (q : Q) : (0 <= Qfrac q)%Q ∧ (Qfrac q < 1)%Q.
Proof.
  unfold Qfrac. pose proof (Qfloor_le q) as Hlo. pose proof (Qlt_floor q) as Hhi.
  rewrite inject_Z_plus in Hhi. change (inject_Z 1) with 1%Q in Hhi.
  split.
  - apply (Qplus_le_l _ _ (inject_Z (Qfloor q))). ring_simplify. exact Hlo.
  - apply (Qplus_lt_l _ _ (inject_Z (Qfloor q))). ring_simplify.
    eapply Qlt_le_trans; [exact Hhi|]. rewrite Qplus_comm. apply Qle_refl.
Qed.

Lemma random_sample_Ok (g : rng) :
  ∃ u g', random_sample g = Ok (u, g') ∧ (0 <= u)%Q ∧ (u < 1)%Q.
Proof.
  eexists _, _. split; [reflexivity|]. apply Qfrac_bounds.
Qed.

Lemma random_sample_inv (g g' : rng) (u : Q) :
  random_sample g = Ok (u, g') → (0 <= u)%Q ∧ (u < 1)%Q.
Proof. intros [= <- _]. apply Qfrac_bounds. Qed.

Lemma choice_elem {A} (a : list A) (g g' : rng) (x : A) :
  choice a g = Ok (x, g') → x ∈ a.
Proof.
  unfold choice. destruct a as [|y a]; [done|].
  intros H. run_inv H. destruct ((y :: a) !! a0) as [z|] eqn:Hz; [|done].
  apply ST_ret_Ok in H as [-> _]. by eapply list_elem_of_lookup_2.
Qed.

Lemma searchsorted_positive {A} (u acc : Q) (a : list A) (p : list Q) (x : A) :
  (acc <= u)%Q → searchsorted u acc a p = Some x →
  ∃ i px, a !! i = Some x ∧ p !! i = Some px ∧ (0 < px)%Q.
Proof.
  revert acc p. induction a as [|y a IH]; intros acc p Hacc H; [done|].
  destruct p as [|py p]; [done|]. simpl in H.
  destruct (Qlt_le_dec u (acc + py)) as [Hlt|Hle].
  - injection H as ->. exists 0%nat, py. split; [done|]. split; [done|].
    apply (Qplus_lt_r _ _ acc). rewrite Qplus_0_r.
    eapply Qle_lt_trans; eauto.
  - destruct (IH _ _ Hle H) as (i & px & ? & ? & ?).
    exists (S i), px. eauto.
Qed.

Lemma choice_p_positive {A} (a : list A) (p : list Q) (g g' : rng) (x : A) :
  choice_p a p g = Ok (x, g') →
  ∃ i px, a !! i = Some x ∧ p !! i = Some px ∧ (0 < px)%Q.
Proof.
  unfold choice_p. destruct a as [|y a]; [done|].
  destruct (negb _); [done|]. destruct (negb _); [done|].
  intros H. run_inv H. apply random_sample_inv in Hrun as [Hlo _].
  destruct (searchsorted _ _ _ _) as [z|] eqn:Hz; [|done].
  apply ST_ret_Ok in H as [-> _]. by eapply searchsorted_positive.
Qed.

Lemma sumZ_nonneg (w : list Z) : Forall (λ c, 0 ≤ c) w → 0 ≤ sumZ w.
Proof. induction 1; simpl; lia. Qed.

(** A weighted draw over non-negative weights returns an entry whose
    weight is positive. *)
Lemma choice_weighted_positive {A} (a : list A) (w : list Z) (g g' : rng) (x : A) :
  Forall (λ c, 0 ≤ c) w → choice_weighted a w g = Ok (x, g') →
  ∃ i c, a !! i = Some x ∧ w !! i = Some c ∧ 0 < c.
Proof.
  intros Hw. unfold choice_weighted, normalised.
  destruct (decide (sumZ w = 0)) as [|Hs]; [done|].
  intros H. apply choice_p_positive in H as (i & px & Hi & Hp & Hpos).
  rewrite list_lookup_fmap in Hp.
  destruct (w !! i) as [c|] eqn:Hc; [|done]. injection Hp as <-.
  exists i, c. split; [done|]. split; [done|].
  pose proof (sumZ_nonneg w Hw) as Hs0.
  assert (0 < sumZ w) as Hs1 by lia.
  destruct (Z_lt_le_dec 0 c) as [|Hc0]; [done|]. exfalso.
  apply (Qlt_not_le _ _ Hpos). unfold Qdiv.
  apply Qle_trans with (0 * / inject_Z (sumZ w))%Q.
  - apply Qmult_le_compat_r.
    + change 0%Q with (inject_Z 0). rewrite <- Zle_Qle. done.
    + apply Qlt_le_weak, Qinv_lt_0_compat.
      change 0%Q with (inject_Z 0). rewrite <- Zlt_Qlt. done.
  - rewrite Qmult_0_l. apply Qle_refl.
Qed.

Lemma swap_length {A} (i j : nat) (l : list A) : length (swap i j l) = length l.
Proof.
  unfold swap. destruct (l !! i), (l !! j); try done.
  by rewrite !length_insert.
Qed.

Lemma shuffle_from_length {A} (i : nat) (l l' : list A) (g g' : rng) :
  shuffle_from i l g = Ok (l', g') → length l' = length l.
Proof.
  revert l g. induction i as [|i IH]; intros l g H; simpl in H.
  - by apply ST_ret_Ok in H as [-> _].
  - run_inv H. apply IH in H. by rewrite swap_length in H.
Qed.

Lemma shuffle_length {A} (l l' : list A) (g g' : rng) :
  shuffle l g = Ok (l', g') → length l' = length l.
Proof. apply shuffle_from_length. Qed.

(** ** Facility residents *)

Lemma slice_app {A} (k : Z) (l : list A) : slice_to k l ++ slice_from k l = l.
Proof. unfold slice_to, slice_from. destruct (0 <=? k); apply take_drop. Qed.

Lemma sum_len_app {A} (fs gs : list (list A)) :
  sum_len (fs ++ gs) = sum_len fs + sum_len gs.
Proof. induction fs as [|f fs IH]; simpl; [done|]. rewrite IH. lia. Qed.

Lemma sum_len_concat {A} (fs : list (list A)) :
  sum_len fs = Z.of_nat (length (concat fs)).
Proof.
  induction fs as [|f fs IH]; simpl; [done|]. rewrite length_app, IH. lia.
Qed.

Lemma no_resident_left {A} (l : list A) :
  (0 <? Z.of_nat (length l)) = false → l = [].
Proof. intros H. apply Z.ltb_ge in H. destruct l; [done | simpl in H; lia]. Qed.

(** The loop deals the residents out in order: the facilities, one after
    the other, are the list of residents. *)
Lemma place_residents_concat (fuel : nat) (keys : list Z) (probs : list Q)
    (brackets : gmap Z (list Z)) (all_residents : list Z)
    (acc facilities : list (list Z)) (g g' : rng) :
  place_residents fuel keys probs brackets all_residents acc g = Ok (facilities, g') →
  concat facilities = concat acc ++ all_residents.
Proof.
  revert all_residents acc g.
  induction fuel as [|fuel IH]; intros res acc g H; simpl in H.
  - destruct (0 <? Z.of_nat (length res)) eqn:Hlen; [done|].
    apply ST_ret_Ok in H as [-> _].
    apply no_resident_left in Hlen as ->. by rewrite (right_id_L [] (++)).
  - destruct (0 <? Z.of_nat (length res)) eqn:Hlen.
    + run_inv H. apply IH in H.
      rewrite H, concat_app. simpl. rewrite (right_id_L [] (++)), <- (assoc_L (++)).
      by rewrite slice_app.
    + apply ST_ret_Ok in H as [-> _].
      apply no_resident_left in Hlen as ->. by rewrite (right_id_L [] (++)).
Qed.

(** When every size of the size table is at least 1, every facility the
    loop creates has a resident. *)
Lemma place_residents_nonempty (fuel : nat) (keys : list Z) (probs : list Q)
    (brackets : gmap Z (list Z)) (all_residents : list Z)
    (acc facilities : list (list Z)) (g g' : rng) :
  (∀ sb sb_range size, brackets !! sb = Some sb_range → size ∈ sb_range → 1 ≤ size) →
  Forall (λ fc, (1 ≤ length fc)%nat) acc →
  place_residents fuel keys probs brackets all_residents acc g = Ok (facilities, g') →
  Forall (λ fc, (1 ≤ length fc)%nat) facilities.
Proof.
  intros Hsizes. revert all_residents acc g.
  induction fuel as [|fuel IH]; intros res acc g Hacc H; simpl in H.
  - destruct (0 <? Z.of_nat (length res)); [done|].
    by apply ST_ret_Ok in H as [-> _].
  - destruct (0 <? Z.of_nat (length res)) eqn:Hlen.
    + run_inv H. apply lift_Ok in Hrun0 as [Hget ->].
      unfold getitem in Hget.
      destruct (brackets !! a) as [sb_range|] eqn:Hsb; [|done].
      injection Hget as ->. apply choice_elem in Hrun1.
      pose proof (Hsizes _ _ _ Hsb Hrun1) as Hsize.
      eapply IH; [|exact H]. apply Forall_app. split; [done|].
      constructor; [|done]. apply Z.ltb_lt in Hlen.
      unfold slice_to.
      destruct (Z.of_nat (length res) <? a1) eqn:Hclamp.
      * replace (0 <=? Z.of_nat (length res)) with true by (symmetry; apply Z.leb_le; lia).
        rewrite length_take. lia.
      * apply Z.ltb_ge in Hclamp.
        replace (0 <=? a1) with true by (symmetry; apply Z.leb_le; lia).
        rewrite length_take. lia.
    + by apply ST_ret_Ok in H as [-> _].
Qed.

(** With sizes of at least 1 the loop ends within as many iterations as
    there are residents. *)
Lemma place_residents_fuel (fuel : nat) (keys : list Z) (probs : list Q)
    (brackets : gmap Z (list Z)) (all_residents : list Z)
    (acc : list (list Z)) (g : rng) :
  (∀ sb sb_range size, brackets !! sb = Some sb_range → size ∈ sb_range → 1 ≤ size) →
  (length all_residents ≤ fuel)%nat →
  place_residents fuel keys probs brackets all_residents acc g ≠ OutOfFuel.
Proof.
  intros Hsizes. revert all_residents acc g.
  induction fuel as [|fuel IH]; intros res acc g Hfuel; simpl.
  - destruct res; [done | simpl in Hfuel; lia].
  - destruct (0 <? Z.of_nat (length res)) eqn:Hlen; [|done].
    apply Z.ltb_lt in Hlen.
    apply ST_bind_fuel; [apply finishes_choice_p|]. intros sb g1 _.
    apply ST_bind_fuel; [apply finishes_lift, getitem_fuel|].
    intros sb_range g2 Hrange. apply lift_Ok in Hrange as [Hget ->].
    unfold getitem in Hget.
    destruct (brackets !! sb) as [r|] eqn:Hb; [|done]. injection Hget as ->.
    apply ST_bind_fuel; [apply finishes_choice|]. intros size g3 Hsize.
    apply choice_elem in Hsize. pose proof (Hsizes _ _ _ Hb Hsize).
    apply IH. unfold slice_from.
    destruct (Z.of_nat (length res) <? size) eqn:Hclamp.
    + replace (0 <=? Z.of_nat (length res)) with true by (symmetry; apply Z.leb_le; lia).
      rewrite length_drop. lia.
    + apply Z.ltb_ge in Hclamp.
      replace (0 <=? size) with true by (symmetry; apply Z.leb_le; lia).
      rewrite length_drop. lia.
Qed.

(** ** Household sizes *)

Lemma sumZ_app (l k : list Z) : sumZ (l ++ k) = sumZ l + sumZ k.
Proof. induction l as [|x l IH]; simpl; [done|]. rewrite IH. lia. Qed.



Lemma household_sizes_loop_fuel (fuel : nat) (keys : list Z) (probs : list Q)
    (remaining : Z) (acc : list Z) (g : rng) :
  (Z.to_nat remaining ≤ fuel)%nat →
  household_sizes_loop fuel keys probs remaining acc g ≠ OutOfFuel.
Proof.
  revert remaining acc g.
  induction fuel as [|fuel IH]; intros remaining acc g Hfuel; simpl.
  - destruct (remaining <=? 0) eqn:Hle; [done|]. apply Z.leb_gt in Hle. lia.
  - destruct (remaining <=? 0) eqn:Hle; [done|]. apply Z.leb_gt in Hle.
    apply ST_bind_fuel; [apply finishes_choice_p|]. intros sampled g1 _.
    apply IH. lia.
Qed.


Lemma spec_generate_household_sizes_ends (distr : gmap Z Q) (count : Z) :
  finishes (spec_generate_household_sizes distr count).
Proof.
  intros g. unfold spec_generate_household_sizes.
  destruct (count <? 0); [done|].
  apply ST_bind_fuel; [apply finishes_lift, values_at_fuel|]. intros probs g1 _.
  by apply household_sizes_loop_fuel.
Qed.

(** ** Facility residents leave the pools *)

Lemma remove_resident_inv (d : gmap Z Z) (p p' : Pools) (uid : Z) :
  remove_resident d p uid = Ok p' →
  potential_worker_uids p' = delete uid (potential_worker_uids p)
  ∧ (counts_nonneg p → counts_nonneg p').
Proof.
  unfold remove_resident. intros H. run_inv H.
  destruct (decide (is_Some (potential_worker_uids p !! uid))) as [Hin|Hout].
  - run_inv H. injection H as <-. simpl. split; [done|].
    intros Hp b c. destruct (0 <? a2) eqn:Hpos; [|apply Hp].
    apply Z.ltb_lt in Hpos. simpl.
    destruct (decide (a = b)) as [->|Hne].
    + rewrite lookup_insert_eq. intros [= <-]. lia.
    + rewrite lookup_insert_ne by done. apply Hp.
  - injection H as <-. split; [|done].
    symmetry. apply delete_id. by apply eq_None_not_Some.
Qed.

Lemma remove_residents_of_inv (d : gmap Z Z) (p p' : Pools) (fc : list Z) :
  remove_residents_of d p fc = Ok p' →
  potential_worker_uids p' = foldl (λ m uid, delete uid m) (potential_worker_uids p) fc
  ∧ (counts_nonneg p → counts_nonneg p').
Proof.
  revert p. induction fc as [|uid fc IH]; intros p H; simpl in H.
  - by injection H as <-.
  - run_inv H. apply remove_resident_inv in Hrun as [Hdel Hcnt].
    apply IH in H as [Hrest Hcnt']. simpl. rewrite <- Hdel. split; auto.
Qed.

Lemma remove_residents_inv (d : gmap Z Z) (p p' : Pools) (fs : list (list Z)) :
  remove_residents d p fs = Ok p' →
  potential_worker_uids p'
    = foldl (λ m uid, delete uid m) (potential_worker_uids p) (concat fs)
  ∧ (counts_nonneg p → counts_nonneg p').
Proof.
  revert p. induction fs as [|fc fs IH]; intros p H; simpl in H.
  - by injection H as <-.
  - run_inv H. apply remove_residents_of_inv in Hrun as [Hdel Hcnt].
    apply IH in H as [Hrest Hcnt']. simpl. rewrite foldl_app, <- Hdel. split; auto.
Qed.

Lemma lookup_delete_all (m : gmap Z Z) (uids : list Z) (uid : Z) :
  foldl (λ m uid, delete uid m) m uids !! uid
  = if decide (uid ∈ uids) then None else m !! uid.
Proof.
  revert m. induction uids as [|u uids IH]; intros m; simpl; [done|].
  rewrite IH.
  destruct (decide (uid ∈ uids)) as [Hin|Hout];
    destruct (decide (uid ∈ u :: uids)) as [Hin'|Hout']; try done.
  - exfalso. apply Hout'. by right.
  - apply elem_of_cons in Hin' as [->|?]; [apply lookup_delete_eq | done].
  - apply lookup_delete_ne. intros ->. apply Hout'. left.
Qed.

(** Once [remove_residents] has run no resident is a potential worker, and
    nobody else has left the dictionary. *)
Lemma remove_residents_gone (d : gmap Z Z) (p p' : Pools) (fs : list (list Z)) :
  remove_residents d p fs = Ok p' →
  ∀ uid, potential_worker_uids p' !! uid
         = if decide (uid ∈ concat fs) then None else potential_worker_uids p !! uid.
Proof.
  intros H uid. apply remove_residents_inv in H as [-> _]. apply lookup_delete_all.
Qed.

(** The counter of a resident who was a potential worker is decremented
    when it is positive and left at zero otherwise: no exception comes from
    the counter. *)
Lemma remove_resident_clamps (d : gmap Z Z) (p : Pools) (uid a c : Z) (uids : list Z) :
  d !! uid = Some a → is_Some (potential_worker_uids p !! uid) →
  potential_worker_uids_by_age p !! a = Some uids → uid ∈ uids →
  workers_by_age_to_assign_count p !! a = Some c → 0 ≤ c →
  ∃ p', remove_resident d p uid = Ok p'
        ∧ workers_by_age_to_assign_count p' !! a = Some (Z.max 0 (c - 1)).
Proof.
  intros Hd Hin Hby Huid Hc Hc0. unfold remove_resident, getitem.
  rewrite Hd. simpl. rewrite decide_True by done. rewrite Hby. simpl.
  assert (∃ uids', list_remove uid uids = Ok uids') as [uids' ->].
  { clear Hby. induction uids as [|u uids IH]; [by apply elem_of_nil in Huid|].
    simpl. destruct (decide (uid = u)); [eauto|].
    apply elem_of_cons in Huid as [?|Huid]; [done|].
    destruct (IH Huid) as [r ->]. simpl. eauto. }
  simpl. rewrite Hc. simpl. eexists. split; [reflexivity|]. simpl.
  destruct (0 <? c) eqn:Hpos.
  - apply Z.ltb_lt in Hpos. rewrite lookup_insert_eq. f_equal. lia.
  - apply Z.ltb_ge in Hpos. rewrite Hc. f_equal. lia.
Qed.

(** ** Facility staff *)

Lemma choice_weighted_elem {A} (a : list A) (w : list Z) (g g' : rng) (x : A) :
  choice_weighted a w g = Ok (x, g') → x ∈ a.
Proof.
  unfold choice_weighted. destruct (normalised w); [|done].
  intros (i & px & Hi & _)%choice_p_positive. by eapply list_elem_of_lookup_2.
Qed.

Lemma list_remove_head `{EqDecision A} (x : A) (l : list A) :
  list_remove x (x :: l) = Ok l.
Proof. simpl. by rewrite decide_True. Qed.

Lemma values_at_nonneg (p : Pools) (range : list Z) (w : list Z) :
  counts_nonneg p → values_at (workers_by_age_to_assign_count p) range = Ok w →
  Forall (λ c, 0 ≤ c) w.
Proof.
  intros Hp H. apply mapM_Ok in H. induction H as [|a c range w Hget _ IH];
    constructor; [|done].
  unfold getitem in Hget.
  destruct (workers_by_age_to_assign_count p !! a) eqn:Ha; [|done].
  injection Hget as ->. by eapply Hp.
Qed.

(** What one successful draw does: the age drawn belongs to the staff
    range, the worker drawn is the first potential worker of that age, and
    worker and counter are updated.  Over non-negative counters the counter
    of the age drawn was positive. *)
Lemma draw_staff_member_inv (range : list Z) (p p' : Pools) (g g' : rng)
    (aindex uid : Z) :
  draw_staff_member range p g = Ok ((aindex, uid), p', g') →
  ∃ c uids,
    aindex ∈ range
    ∧ workers_by_age_to_assign_count p !! aindex = Some c
    ∧ potential_worker_uids_by_age p !! aindex = Some (uid :: uids)
    ∧ p' = {| potential_worker_uids := delete uid (potential_worker_uids p);
              potential_worker_uids_by_age :=
                <[aindex := uids]> (potential_worker_uids_by_age p);
              workers_by_age_to_assign_count :=
                <[aindex := c - 1]> (workers_by_age_to_assign_count p) |}
    ∧ (counts_nonneg p → 0 < c).
Proof.
  unfold draw_staff_member. intros H. run_inv H.
  apply lift_Ok in Hrun as [Hw ->]. apply lift_Ok in Hrun1 as [Hby ->].
  apply lift_Ok in Hrun2 as [Hfirst ->]. apply lift_Ok in Hrun3 as [Hrm ->].
  apply lift_Ok in Hrun4 as [Hc ->]. apply ST_ret_Ok in H as [[= -> -> ->] ->].
  unfold getitem in Hby, Hc.
  destruct (potential_worker_uids_by_age p !! a0) as [l|] eqn:Hl; [|done].
  injection Hby as ->.
  destruct (workers_by_age_to_assign_count p !! a0) as [c|] eqn:Hcount; [|done].
  injection Hc as ->.
  destruct a1 as [|u uids]; [done|]. injection Hfirst as ->.
  rewrite list_remove_head in Hrm. injection Hrm as ->.
  eexists _, _. split; [by eapply choice_weighted_elem|].
  do 3 (split; [reflexivity|]).
  intros Hp. pose proof (values_at_nonneg _ _ _ Hp Hw) as Hnn.
  destruct (choice_weighted_positive _ _ _ _ _ Hnn Hrun0) as (i & ci & Hi & Hwi & Hpos).
  pose proof (values_at_lookup _ _ _ _ _ _ Hw Hi Hwi) as Hlook.
  rewrite Hcount in Hlook. by injection Hlook as ->.
Qed.

Lemma draw_staff_member_counts (range : list Z) (p p' : Pools) (g g' : rng)
    (aindex uid : Z) :
  counts_nonneg p → draw_staff_member range p g = Ok ((aindex, uid), p', g') →
  counts_nonneg p'.
Proof.
  intros Hp H. apply draw_staff_member_inv in H as (c & uids & _ & Hc & _ & -> & Hpos).
  specialize (Hpos Hp). intros b cb. simpl.
  destruct (decide (aindex = b)) as [->|Hne].
  - rewrite lookup_insert_eq. intros [= <-]. lia.
  - rewrite lookup_insert_ne by done. apply Hp.
Qed.

Lemma supply_insert_other (range : list Z) (by_age : gmap Z (list Z)) (a : Z)
    (uids : list Z) :
  a ∉ range → supply range (<[a := uids]> by_age) = supply range by_age.
Proof.
  unfold supply. induction range as [|b range IH]; intros Hout; simpl; [done|].
  apply not_elem_of_cons in Hout as [Hne Hout].
  rewrite lookup_insert_ne by done. by rewrite IH.
Qed.

(** Taking the first worker of an age of the range lowers the supply of
    the range by exactly one. *)
Lemma supply_take_first (range : list Z) (by_age : gmap Z (list Z)) (a uid : Z)
    (uids : list Z) :
  NoDup range → a ∈ range → by_age !! a = Some (uid :: uids) →
  S (supply range (<[a := uids]> by_age)) = supply range by_age.
Proof.
  intros Hnd Hin Hby. induction Hnd as [|b range Hb Hnd IH]; [by apply elem_of_nil in Hin|].
  apply elem_of_cons in Hin as [<-|Hin].
  - change (supply (a :: range) ?m)
      with (length (default [] (m !! a)) + supply range m)%nat.
    rewrite supply_insert_other by done.
    rewrite lookup_insert_eq, Hby. simpl. lia.
  - change (supply (b :: range) ?m)
      with (length (default [] (m !! b)) + supply range m)%nat.
    assert (a ≠ b) by (by intros ->).
    rewrite lookup_insert_ne by done. rewrite <- (IH Hin). lia.
Qed.

(** The loop [for i in range(n_staff)]: it appends exactly [n_staff]
    workers, takes each of them out of the dictionary of potential workers,
    lowers the supply of the staff range by [n_staff] and keeps the
    counters non-negative. *)
Lemma draw_staff_inv (n_staff : nat) (range : list Z) (p p' : Pools)
    (acc_ages acc_uids new_staff new_staff_uids : list Z) (g g' : rng) :
  NoDup range →
  draw_staff n_staff range p acc_ages acc_uids g
    = Ok ((new_staff, new_staff_uids), p', g') →
  ∃ drawn,
    new_staff_uids = acc_uids ++ drawn
    ∧ length drawn = n_staff
    ∧ (pool_supply range p' + n_staff)%nat = pool_supply range p
    ∧ potential_worker_uids p'
      = foldl (λ m uid, delete uid m) (potential_worker_uids p) drawn
    ∧ (counts_nonneg p → counts_nonneg p').
Proof.
  intros Hnd. revert p acc_ages acc_uids g.
  induction n_staff as [|k IH]; intros p acc_ages acc_uids g H; simpl in H.
  - apply ST_ret_Ok in H as [[= -> -> ->] ->]. exists [].
    rewrite (right_id_L [] (++)). repeat split; [lia | done].
  - run_inv H.
    pose proof (λ Hp, draw_staff_member_counts _ _ _ _ _ _ _ Hp Hrun) as Hcnt.
    apply draw_staff_member_inv in Hrun as (c & uids & Hin & Hc & Hby & -> & _).
    apply IH in H as (drawn & -> & Hlen & Hsup & Hdel & Hcnt').
    eexists (_ :: drawn). rewrite <- (assoc_L (++)). simpl.
    split; [done|]. split; [by rewrite Hlen|]. split; [|split; [done|auto]].
    unfold pool_supply in *. simpl in Hsup.
    pose proof (supply_take_first _ _ _ _ _ Hnd Hin Hby). lia.
Qed.

Lemma draw_staff_ends (n_staff : nat) (range : list Z) (p : Pools)
    (acc_ages acc_uids : list Z) :
  finishes (draw_staff n_staff range p acc_ages acc_uids).
Proof.
  revert p acc_ages acc_uids. induction n_staff as [|k IH]; intros p acc_ages acc_uids.
  - apply finishes_ret.
  - simpl. apply finishes_bind.
    + unfold draw_staff_member.
      repeat (apply finishes_bind; [|intros ?]);
        try apply finishes_ret; try apply finishes_choice_weighted;
        apply finishes_lift;
        auto using values_at_fuel, getitem_fuel, first_fuel, list_remove_fuel.
    + intros [[aindex uid] p1]. apply IH.
Qed.

Lemma NoDup_arange (lo hi : Z) : NoDup (arange lo hi).
Proof. apply NoDup_seqZ. Qed.

Lemma sample_ratio_inv (distr : gmap Z Q) (keys : list Z) (arr : list Q)
    (brackets : gmap Z (list Q)) (g g' : rng) (ratio : option Q) :
  values_at distr keys = Ok arr →
  sample_ratio keys arr brackets g = Ok (ratio, g') →
  ∃ sb prob sb_range,
    distr !! sb = Some prob ∧ (0 < prob)%Q
    ∧ brackets !! sb = Some sb_range ∧ ratio = mean sb_range.
Proof.
  intros Harr H. unfold sample_ratio in H. run_inv H.
  apply choice_p_positive in Hrun as (i & prob & Hi & Hp & Hpos).
  apply lift_Ok in Hrun0 as [Hget ->]. apply ST_ret_Ok in H as [-> _].
  unfold getitem in Hget. destruct (brackets !! a) as [r|] eqn:Hb; [|done].
  injection Hget as ->. exists a, prob, a0.
  split; [by eapply values_at_lookup|]. done.
Qed.

(** The loop over the facilities: every facility gets a staff sized from a
    sampled ratio, in the order of the facilities. *)
Lemma staff_facilities_inv (distr : gmap Z Q) (keys : list Z) (arr : list Q)
    (brackets : gmap Z (list Q)) (range : list Z) (p p' : Pools)
    (facilities acc_ages acc_uids staff staff_uids : list (list Z)) (g g' : rng) :
  NoDup range → values_at distr keys = Ok arr →
  staff_facilities keys arr brackets range p facilities acc_ages acc_uids g
    = Ok ((staff, staff_uids), p', g') →
  ∃ new_uids,
    staff_uids = acc_uids ++ new_uids
    ∧ Forall2 (staffed_by distr brackets) facilities new_uids
    ∧ (pool_supply range p' + length (concat new_uids))%nat = pool_supply range p
    ∧ potential_worker_uids p'
      = foldl (λ m uid, delete uid m) (potential_worker_uids p) (concat new_uids)
    ∧ (counts_nonneg p → counts_nonneg p').
Proof.
  intros Hnd Harr. revert p acc_ages acc_uids g.
  induction facilities as [|fc rest IH]; intros p acc_ages acc_uids g H; simpl in H.
  - apply ST_ret_Ok in H as [[= -> -> ->] ->]. exists [].
    rewrite (right_id_L [] (++)). simpl.
    split; [done|]. split; [constructor|]. split; [lia|done].
  - run_inv H. unfold staff_facility in Hrun. run_inv Hrun.
    apply (sample_ratio_inv distr) in Hrun0 as (sb & prob & sb_range & Hd & Hpos & Hb & ->);
      [|done].
    apply lift_Ok in Hrun1 as [Hneed ->].
    apply draw_staff_inv in Hrun as (drawn & -> & Hlen & Hsup & Hdel & Hcnt); [|done].
    apply IH in H as (more & -> & Hall & Hsup' & Hdel' & Hcnt').
    exists (drawn :: more). rewrite <- (assoc_L (++)). simpl.
    split; [done|]. split; [|split; [|split]].
    + constructor; [|done]. eexists sb, prob, sb_range, _. eauto.
    + rewrite length_app. lia.
    + by rewrite foldl_app, <- Hdel.
    + auto.
Qed.

Lemma assign_facility_staff_inv (cfg : Config) (t : Tables) (p p' : Pools)
    (facilities staff staff_uids : list (list Z)) (g g' : rng) :
  assign_facility_staff cfg t p facilities g = Ok ((staff, staff_uids), p', g') →
  let range := arange (ltcf_staff_age_min cfg) (ltcf_staff_age_max cfg + 1) in
  Forall2 (staffed_by (KC_ratio_distr t) (KC_ratio_brackets t)) facilities staff_uids
  ∧ (pool_supply range p' + length (concat staff_uids))%nat = pool_supply range p
  ∧ potential_worker_uids p'
    = foldl (λ m uid, delete uid m) (potential_worker_uids p) (concat staff_uids)
  ∧ (counts_nonneg p → counts_nonneg p').
Proof.
  unfold assign_facility_staff. intros H. run_inv H.
  apply lift_Ok in Hrun as [Harr ->].
  apply (staff_facilities_inv (KC_ratio_distr t)) in H
    as (new_uids & -> & Hall & Hsup & Hdel & Hcnt); [done | apply NoDup_arange | done].
Qed.

Lemma values_at_all_zero (d : gmap Z Z) (range : list Z) :
  (∀ a, a ∈ range → d !! a = Some 0) →
  ∃ w, values_at d range = Ok w ∧ sumZ w = 0.
Proof.
  unfold values_at. induction range as [|a range IH]; intros Hzero; simpl.
  - by exists [].
  - destruct IH as (w & -> & Hsum); [intros b Hb; apply Hzero; by right|].
    unfold getitem. rewrite (Hzero a) by apply list_elem_of_here.
    simpl. exists (0 :: w). split; [done|]. simpl. lia.
Qed.

(** When every counter of the staff range is at zero the draw raises
    [ValueError]: the probabilities handed to the sampler are not numbers. *)
Lemma draw_staff_member_all_zero (range : list Z) (p : Pools) (g : rng) :
  (∀ a, a ∈ range → workers_by_age_to_assign_count p !! a = Some 0) →
  draw_staff_member range p g = Raise ValueError.
Proof.
  intros Hzero. destruct (values_at_all_zero _ _ Hzero) as (w & Hw & Hsum).
  unfold draw_staff_member, mbind, ST_bind. rewrite Hw. simpl.
  unfold choice_weighted, normalised. by rewrite decide_True.
Qed.

Lemma sumQ_pos (l : list Q) : l ≠ [] → Forall (λ q, (0 < q)%Q) l → (0 < sumQ l)%Q.
Proof.
  intros Hne Hall. destruct Hall as [|q l Hq Hall]; [done|]. clear Hne. simpl.
  assert (0 <= sumQ l)%Q as Hrest.
  { induction Hall as [|r l Hr _ IH]; simpl; [apply Qle_refl|].
    apply (Qplus_le_compat 0 r 0 (sumQ l)); [by apply Qlt_le_weak | done]. }
  by apply (Qplus_lt_le_compat 0 q 0 (sumQ l)).
Qed.

Lemma mean_pos (l : list Q) (m : Q) :
  Forall (λ q, (0 < q)%Q) l → mean l = Some m → (0 < m)%Q.
Proof.
  intros Hall Hm. destruct l as [|q k]; [done|].
  unfold mean in Hm. injection Hm as <-.
  apply Qlt_shift_div_l.
  - change 0%Q with (inject_Z 0). rewrite <- Zlt_Qlt. simpl. lia.
  - rewrite Qmult_0_l. by apply (sumQ_pos (q :: k)).
Qed.

(** The staff count of a facility with a positive ratio: the ceiling of
    the residents over a third of the ratio, and at least 1 as soon as the
    facility has a resident. *)
Lemma staff_needed_formula (n_residents n_staff : Z) (ratio : Q) :
  (0 < ratio)%Q →
  staff_needed n_residents (Some ratio) = Ok n_staff →
  n_staff = Qceiling (inject_Z n_residents / (ratio / 3))
  ∧ (0 ≤ n_residents → 0 ≤ n_staff) ∧ (1 ≤ n_residents → 1 ≤ n_staff).
Proof.
  intros Hratio. unfold staff_needed.
  destruct (Qeq_bool (ratio / 3) 0) eqn:Hzero.
  { destruct (decide (n_residents = 0)); done. }
  intros [= <-]. split; [done|].
  assert (0 < ratio / 3)%Q as Hthird.
  { apply Qlt_shift_div_l; [done|]. by rewrite Qmult_0_l. }
  split; intros Hres.
  - change 0 with (Qceiling 0). apply Qceiling_resp_le.
    apply Qle_shift_div_l; [done|]. rewrite Qmult_0_l.
    change 0%Q with (inject_Z 0). by rewrite <- Zle_Qle.
  - assert (0 < inject_Z n_residents / (ratio / 3))%Q as Hpos.
    { apply Qlt_shift_div_l; [done|]. rewrite Qmult_0_l.
      change 0%Q with (inject_Z 0). rewrite <- Zlt_Qlt. lia. }
    pose proof (Qle_ceiling (inject_Z n_residents / (ratio / 3))) as Hceil.
    pose proof (Qlt_le_trans _ _ _ Hpos Hceil) as Hlt.
    change 0%Q with (inject_Z 0) in Hlt. rewrite <- Zlt_Qlt in Hlt. lia.
Qed.

(** ** Runs of [generate] *)

Lemma enter_inv (s : stage) (pool : gmap Z Z) (w w' : world) (u : unit) :
  enter s pool w = Ok (u, w') →
  w' = {| gen := gen w; trace := trace w ++ [{| ev_stage := s; ev_pool := pool |}] |}.
Proof. unfold enter. by intros [= _ <-]. Qed.

(** Take a successful run of a sequence of stages apart, statement by
    statement. *)
Ltac run_steps H :=
  run_inv H;
  repeat match goal with
  | Hz : zoom _ _ = Ok _ |- _ =>
      let g := fresh "g" in apply zoom_Ok in Hz as (g & Hz & ->)
  | He : enter _ _ _ = Ok _ |- _ => apply enter_inv in He as ->
  | Hl : lift _ _ = Ok _ |- _ => apply lift_Ok in Hl as [Hl ->]
  | Hr : mret _ _ = Ok _ |- _ => apply ST_ret_Ok in Hr as [-> ->]
  end;
  cbn [gen trace] in *.

(** What a successful run of the body went through: the stages it
    entered, in order, with the dictionary of potential workers each of them
    found, and the calls that produced the groups of the frame. *)
Lemma generate_body_inv (cfg : Config) (t : Tables) (ext : Externals)
    (fuel : nat) (w w' : world) (f : Frame) :
  generate_body cfg t ext fuel w = Ok (f, w') →
  ∃ (g0 g1 g2 g3 g4 g5 g6 g7 : rng) (schools : Schools) (left : gmap Z Z)
    (p0 p1 p2 p3 p4 : Pools) (teachers workplaces : list (list Z)) (sizes : list Z),
    make_facilities fuel t (n cfg) (gen w)
      = Ok ((fr_expected_users_by_age f, fr_facilities f), g0)
    ∧ generate_household_sizes_from_fixed_pop_size ext
        (n_nonltcf (n cfg) (fr_facilities f)) g0 = Ok (fr_hh_sizes f, g1)
    ∧ remove_residents (age_by_uid_dic (fr_groups f)) p0
        (facilities_by_uids (fr_groups f)) = Ok p1
    ∧ assign_teachers_to_schools ext cfg schools p1 left g2
        = Ok ((teachers, teachers_by_uids (fr_groups f)), p2, g3)
    ∧ assign_additional_staff_to_schools ext cfg (syn_school_uids schools)
        (teachers_by_uids (fr_groups f)) p2 left g3
        = Ok ((non_teaching_staff_uids (fr_groups f), p3), g4)
    ∧ assign_facility_staff cfg t p3 (fr_facilities f) g4
        = Ok ((fr_facilities_staff f, facilities_staff_uids (fr_groups f)), p4, g5)
    ∧ generate_workplace_sizes ext (workers_by_age_to_assign_count p4) g5
        = Ok (sizes, g6)
    ∧ assign_rest_of_workers ext sizes p4 (age_by_uid_dic (fr_groups f)) g6
        = Ok ((workplaces, workplaces_by_uids (fr_groups f)), fr_pools f, g7)
    ∧ make_contacts_from_microstructure_objects ext cfg (fr_groups f) g7
        = Ok (popdict f, gen w')
    ∧ trace w' = trace w ++
        [ {| ev_stage := FacilityResidents; ev_pool := ∅ |};
          {| ev_stage := Households; ev_pool := ∅ |};
          {| ev_stage := SchoolStudents; ev_pool := ∅ |};
          {| ev_stage := PotentialWorkers; ev_pool := ∅ |};
          {| ev_stage := ResidentsLeavePools; ev_pool := potential_worker_uids p0 |};
          {| ev_stage := Teachers; ev_pool := potential_worker_uids p1 |};
          {| ev_stage := NonTeachingStaff; ev_pool := potential_worker_uids p2 |};
          {| ev_stage := FacilityStaff; ev_pool := potential_worker_uids p3 |};
          {| ev_stage := Workplaces; ev_pool := potential_worker_uids p4 |};
          {| ev_stage := ContactGraph; ev_pool := potential_worker_uids (fr_pools f) |} ].
Proof.
  unfold generate_body. intros H. run_steps H.
  repeat match goal with |- ∃ _ : rng, _ => eexists end.
  do 2 eexists. do 5 eexists. do 3 eexists.
  repeat match goal with |- _ ∧ _ => split end; try eassumption; try reflexivity.
  rewrite <- !(assoc_L (++)). reflexivity.
Qed.

Ltac body_inv H :=
  apply generate_body_inv in H
    as (g0 & g1 & g2 & g3 & g4 & g5 & g6 & g7 & schools & left
        & p0 & p1 & p2 & p3 & p4 & teachers & workplaces & sizes
        & Hfac & Hhh & Hrm & Hteach & Hadd & Hstaff & Hwsizes & Hwork
        & Hcontacts & Htrace).

(** ** Facilities and households make up the population *)

Lemma make_facilities_inv (fuel : nat) (t : Tables) (n : Z) (g g' : rng)
    (expected : list (Z * Z)) (facilities : list (list Z)) :
  make_facilities fuel t n g = Ok ((expected, facilities), g') →
  expected_users_by_age t n = Ok expected
  ∧ sum_len facilities = Z.of_nat (length (residents_by_age expected))
  ∧ (sizes_at_least_one t → Forall (λ fc, (1 ≤ length fc)%nat) facilities).
Proof.
  unfold make_facilities. intros H. run_inv H.
  apply lift_Ok in Hrun as [Hexp ->]. apply lift_Ok in Hrun1 as [Harr ->].
  apply ST_ret_Ok in H as [[= -> ->] ->].
  apply shuffle_length in Hrun0. split; [done|]. split.
  - apply place_residents_concat in Hrun2. simpl in Hrun2.
    by rewrite sum_len_concat, Hrun2, Hrun0.
  - intros Hsizes. eapply place_residents_nonempty; [|constructor|exact Hrun2].
    intros sb sb_range size Hsb Hsize.
    specialize (Hsizes _ _ Hsb). simpl in Hsizes.
    by eapply Forall_forall in Hsizes.
Qed.


(** ** Staffing of the facilities *)



(** C7: in every successful run over well-formed tables every facility
    has at least one resident and at least one staff member. *)
Theorem facilities_have_residents_and_staff (cfg : Config) (t : Tables)
    (ext : Externals) (fuel : nat) (w w' : world) (f : Frame) :
  sizes_at_least_one t → ratios_positive t →
  generate_body cfg t ext fuel w = Ok (f, w') →
  Forall (λ fc, (1 ≤ length fc)%nat) (fr_facilities f)
  ∧ Forall (λ su, (1 ≤ length su)%nat) (facilities_staff_uids (fr_groups f))
  ∧ length (facilities_staff_uids (fr_groups f)) = length (fr_facilities f).
Proof.
  intros Hsizes Hratios H.
  body_inv H.
  apply make_facilities_inv in Hfac as (_ & _ & Hres). specialize (Hres Hsizes).
  apply assign_facility_staff_inv in Hstaff as (Hall & _).
  split; [done|]. split; [|symmetry; by eapply Forall2_length].
  clear -Hall Hres Hratios.
  induction Hall as [|fc su fcs sus Hst _ IH]; [constructor|].
  apply Forall_cons in Hres as [Hfc Hres]. constructor; [|by apply IH].
  destruct Hst as (sb & prob & sb_range & n_staff & _ & _ & Hb & Hneed & Hlen).
  destruct (mean sb_range) as [ratio|] eqn:Hmean; [|done].
  apply staff_needed_formula in Hneed as (_ & _ & Hone).
  - specialize (Hone ltac:(lia)). lia.
  - eapply mean_pos; [|exact Hmean]. apply (Hratios _ _ Hb).
Qed.

(** ** Running out of staff *)

Lemma draw_staff_short_supply (n_staff : nat) (range : list Z) (p : Pools)
    (acc_ages acc_uids : list Z) (g : rng) :
  NoDup range → (pool_supply range p < n_staff)%nat →
  raises (draw_staff n_staff range p acc_ages acc_uids g).
Proof.
  intros Hnd Hshort.
  destruct (draw_staff n_staff range p acc_ages acc_uids g)
    as [[[[new_staff new_uids] p'] g']|e|] eqn:Hdraw.
  - apply draw_staff_inv in Hdraw as (drawn & _ & _ & Hsup & _); [lia | done].
  - by exists e.
  - by apply draw_staff_ends in Hdraw.
Qed.

(** C6: when the turn of a facility comes and the potential workers of the
    staff age range are fewer than the staff the facility requires, the
    staffing stage raises an exception: nothing is retried and no shorter
    staff list is returned. *)
Theorem staff_exhaustion_raises (cfg : Config) (t : Tables) (p : Pools)
    (fc : list Z) (rest staff staff_uids : list (list Z))
    (keys : list Z) (arr : list Q) (g g1 : rng) (ratio : option Q) (n_staff : Z) :
  let range := arange (ltcf_staff_age_min cfg) (ltcf_staff_age_max cfg + 1) in
  sample_ratio keys arr (KC_ratio_brackets t) g = Ok (ratio, g1) →
  staff_needed (Z.of_nat (length fc)) ratio = Ok n_staff →
  (pool_supply range p < Z.to_nat n_staff)%nat →
  raises (staff_facilities keys arr (KC_ratio_brackets t) range p (fc :: rest)
            staff staff_uids g).
Proof.
  intros range Hratio Hneed Hshort.
  destruct (draw_staff_short_supply (Z.to_nat n_staff) range p [] [] g1)
    as [e He]; [apply NoDup_arange | done |].
  exists e. simpl. unfold staff_facility, mbind, ST_bind.
  rewrite Hratio. simpl. rewrite Hneed. simpl. by rewrite He.
Qed.

(** ** The counters of workers still to assign *)

(** C4, as the code has it: the counters stay non-negative through both
    stages of [pop.py] that consume potential workers.  When the residents
    leave the pools a counter is only decremented while it is positive;
    when staff is drawn only an age with a positive counter can be drawn,
    and the draw raises [ValueError], rather than clamping, once every
    counter of the staff age range is at zero. *)
Theorem counters_stay_nonnegative (cfg : Config) (t : Tables) (p : Pools) :
  counts_nonneg p →
  (∀ ages facilities_by_uids p',
     remove_residents ages p facilities_by_uids = Ok p' → counts_nonneg p')
  ∧ (∀ facilities out p' g g',
       assign_facility_staff cfg t p facilities g = Ok (out, p', g') →
       counts_nonneg p')
  ∧ (∀ range g,
       (∀ a, a ∈ range → workers_by_age_to_assign_count p !! a = Some 0) →
       draw_staff_member range p g = Raise ValueError).
Proof.
  intros Hp. split; [|split].
  - intros ages fs p' H. apply remove_residents_inv in H as [_ Hcnt]. auto.
  - intros facilities [staff staff_uids] p' g g' H.
    apply assign_facility_staff_inv in H as (_ & _ & _ & Hcnt). auto.
  - intros range g. apply draw_staff_member_all_zero.
Qed.

(** ** The order of the stages *)


(** ** Runs from the same seed *)












(** ** What [generate] returns *)

(** Whenever the body of [generate] has assembled a population dictionary,
    the [return] statement raises [NameError]: the dictionary is bound to
    [popdict], and [population] is not a name of the frame. *)
Lemma generate_raises_NameError (cfg : Config) (t : Tables) (ext : Externals)
    (fuel : nat) (w w' : world) (f : Frame) :
  generate_body cfg t ext fuel w = Ok (f, w') →
  generate cfg t ext fuel w = Raise (NameError "population").
Proof. intros H. unfold generate, mbind, ST_bind. by rewrite H. Qed.

Lemma generate_never_returns (cfg : Config) (t : Tables) (ext : Externals)
    (fuel : nat) (w w' : world) (population : gmap Z (Person (gset Z))) :
  generate cfg t ext fuel w ≠ Ok (population, w').
Proof.
  unfold generate, mbind, ST_bind.
  by destruct (generate_body cfg t ext fuel w) as [[f v]|e|].
Qed.

(** The constructor therefore never stores a population. *)
Lemma Pop_init_never_returns (stream : Z → nat → Q) (cfg : Config)
    (max_contacts : option (gmap string Z)) (rand_seed : option Z) (t : Tables)
    (ext : Externals) (fuel : nat) (w w' : world) (pop : Pop) :
  Pop_init stream cfg max_contacts rand_seed t ext fuel w ≠ Ok (pop, w').
Proof.
  unfold Pop_init, mbind at 1, ST_bind.
  destruct (init_seed stream rand_seed w) as [[u v]|e|]; [|done|done].
  unfold mbind, ST_bind.
  destruct (generate cfg t ext fuel v) as [[population v']|e|] eqn:Hgen;
    [|done|done].
  by apply generate_never_returns in Hgen.
Qed.

Lemma small_run_ok :
  ∃ f w', generate_body Small.cfg Small.tables Small.ext 10 Small.world0 = Ok (f, w').
Proof. eexists _, _. vm_compute. reflexivity. Qed.


(** ** The contact graph *)

Lemma add_contact_linked (layer : string) (u v : Z)
    (pop pop' : gmap Z (Person (gset Z))) :
  add_contact layer u v pop = Ok pop' →
  ∀ l a b, linked pop' l a b ↔ linked pop l a b ∨ (l = layer ∧ a = u ∧ b = v).
Proof.
  unfold add_contact, getitem. destruct (pop !! u) as [person|] eqn:Hu; [|done].
  simpl. intros [= <-] l a b. unfold linked. split.
  - intros (pa & Hpa & Hb). destruct (decide (a = u)) as [->|Hne].
    + rewrite lookup_insert_eq in Hpa. injection Hpa as <-.
      unfold contacts_in in Hb. simpl in Hb.
      destruct (decide (l = layer)) as [->|Hl].
      * rewrite lookup_insert_eq in Hb. simpl in Hb.
        apply elem_of_union in Hb as [Hb|Hb].
        -- apply elem_of_singleton in Hb. by right.
        -- left. by exists person.
      * rewrite lookup_insert_ne in Hb by done. left. by exists person.
    + rewrite lookup_insert_ne in Hpa by done. left. by exists pa.
  - intros [(pa & Hpa & Hb)|(-> & -> & ->)].
    + destruct (decide (a = u)) as [->|Hne].
      * rewrite Hu in Hpa. injection Hpa as <-. eexists.
        rewrite lookup_insert_eq. split; [done|].
        unfold contacts_in. simpl.
        destruct (decide (l = layer)) as [->|Hl].
        -- rewrite lookup_insert_eq. simpl. apply elem_of_union. by right.
        -- by rewrite lookup_insert_ne.
      * exists pa. by rewrite lookup_insert_ne.
    + eexists. rewrite lookup_insert_eq. split; [done|].
      unfold contacts_in. simpl. rewrite lookup_insert_eq. simpl.
      apply elem_of_union. left. by apply elem_of_singleton.
Qed.

Lemma add_edge_linked (layer : string) (e : Z * Z)
    (pop pop' : gmap Z (Person (gset Z))) :
  add_edge layer pop e = Ok pop' →
  ∀ l a b, linked pop' l a b
           ↔ linked pop l a b
             ∨ (l = layer ∧ ((a = e.1 ∧ b = e.2) ∨ (a = e.2 ∧ b = e.1))).
Proof.
  unfold add_edge. intros H l a b. run_inv H.
  rewrite (add_contact_linked _ _ _ _ _ H), (add_contact_linked _ _ _ _ _ Hrun).
  tauto.
Qed.

Lemma add_edges_mirrored (layer : string) (edges : list (Z * Z))
    (pop pop' : gmap Z (Person (gset Z))) :
  foldlM (add_edge layer) pop edges = Ok pop' →
  Forall (λ e, e.1 ≠ e.2) edges →
  (mirrored pop → mirrored pop') ∧ (loop_free pop → loop_free pop').
Proof.
  revert pop. induction edges as [|e edges IH]; intros pop H Hdist; simpl in H.
  - by injection H as <-.
  - run_inv H. apply Forall_cons in Hdist as [He Hdist].
    destruct (IH _ H Hdist) as [IHm IHl].
    pose proof (add_edge_linked _ _ _ _ Hrun) as Hlink.
    split; intros Hpop.
    + apply IHm. intros l x y. rewrite !Hlink.
      intros [Hxy|(-> & Hxy)]; [left; by apply Hpop | right; tauto].
    + apply IHl. intros l x. rewrite Hlink.
      intros [Hxx|(_ & [[-> Hx]|[-> Hx]])]; [by eapply Hpop | done | done].
Qed.

Lemma pairs_distinct (members : list Z) : Forall (λ e, e.1 ≠ e.2) (pairs members).
Proof.
  induction members as [|u rest IH]; simpl; [constructor|].
  apply Forall_app. split; [|done].
  apply Forall_fmap, Forall_forall. intros v Hv. simpl.
  apply list_elem_of_filter in Hv as [Hne _]. by intros ->.
Qed.

Lemma thin_out_sub (keep : Q) (edges kept : list (Z * Z)) (g g' : rng) :
  thin_out keep edges g = Ok (kept, g') → kept ⊆ edges.
Proof.
  revert kept g g'. induction edges as [|e edges IH]; intros kept g g' H; simpl in H.
  - by apply ST_ret_Ok in H as [-> _].
  - run_inv H. apply IH in Hrun0. apply ST_ret_Ok in H as [-> _].
    destruct (Qlt_le_dec a keep); intros x Hx.
    + apply elem_of_cons in Hx as [->|Hx];
        [apply list_elem_of_here | by apply list_elem_of_further, Hrun0].
    + by apply list_elem_of_further, Hrun0.
Qed.

Lemma subsample_sub (cap : option Z) (members : list Z) (edges kept : list (Z * Z))
    (g g' : rng) :
  subsample cap members edges g = Ok (kept, g') → kept ⊆ edges.
Proof.
  unfold subsample. destruct cap as [c|].
  - destruct (_ <=? _); [by intros [-> _]%ST_ret_Ok | apply thin_out_sub].
  - by intros [-> _]%ST_ret_Ok.
Qed.

Lemma connect_group_mirrored (layer : string) (cap : option Z)
    (pop pop' : gmap Z (Person (gset Z))) (members : list Z) (g g' : rng) :
  connect_group layer cap pop members g = Ok (pop', g') →
  (mirrored pop → mirrored pop') ∧ (loop_free pop → loop_free pop').
Proof.
  unfold connect_group. intros H. run_inv H.
  apply subsample_sub in Hrun. apply lift_Ok in H as [H _].
  eapply add_edges_mirrored; [exact H|].
  apply Forall_forall. intros e He.
  by apply (proj1 (Forall_forall _ _) (pairs_distinct members)), Hrun.
Qed.

Lemma connect_groups_mirrored (layer : string) (cap : option Z)
    (pop pop' : gmap Z (Person (gset Z))) (groups : list (list Z)) (g g' : rng) :
  connect_groups layer cap pop groups g = Ok (pop', g') →
  mirrored pop ∧ loop_free pop → mirrored pop' ∧ loop_free pop'.
Proof.
  revert pop g. induction groups as [|members rest IH]; intros pop g H; simpl in H.
  - by apply ST_ret_Ok in H as [-> _].
  - run_inv H. apply connect_group_mirrored in Hrun as [Hm Hl].
    intros [Hpop1 Hpop2]. eapply IH; [exact H|]. auto.
Qed.

Lemma set_member_linked (set : Z → Person (gset Z) → Person (gset Z)) (i : Z)
    (members : list Z) (pop pop' : gmap Z (Person (gset Z))) :
  (∀ j person, contacts (set j person) = contacts person) →
  foldlM (λ pop u, person ← getitem pop u; Ok (<[u := set i person]> pop))
    pop members = Ok pop' →
  ∀ l a b, linked pop' l a b ↔ linked pop l a b.
Proof.
  intros Hset. revert pop. induction members as [|u rest IH]; intros pop H; simpl in H.
  - by injection H as <-.
  - run_inv H. intros l x b. rewrite (IH _ H).
    unfold getitem in Hrun. destruct (pop !! u) as [person|] eqn:Hu; [|done].
    simpl in Hrun. injection Hrun as <-. unfold linked.
    destruct (decide (x = u)) as [->|Hne].
    + rewrite lookup_insert_eq, Hu. unfold contacts_in. split.
      * intros (pa & [= <-] & Hb). rewrite Hset in Hb. eauto.
      * intros (pa & [= <-] & Hb). eexists. split; [done|]. by rewrite Hset.
    + by rewrite lookup_insert_ne.
Qed.

Lemma set_group_linked (set : Z → Person (gset Z) → Person (gset Z))
    (groups : list (list Z)) (pop pop' : gmap Z (Person (gset Z))) :
  (∀ j person, contacts (set j person) = contacts person) →
  set_group set pop groups = Ok pop' →
  ∀ l a b, linked pop' l a b ↔ linked pop l a b.
Proof.
  intros Hset. unfold set_group. generalize (imap pair groups). intros numbered.
  revert pop. induction numbered as [|[i members] rest IH]; intros pop H; simpl in H.
  - by injection H as <-.
  - run_inv H. intros l x b. rewrite (IH _ H).
    by apply (set_member_linked set (Z.of_nat i) members).
Qed.

Lemma set_group_mirrored (set : Z → Person (gset Z) → Person (gset Z))
    (groups : list (list Z)) (pop pop' : gmap Z (Person (gset Z))) :
  (∀ j person, contacts (set j person) = contacts person) →
  set_group set pop groups = Ok pop' →
  mirrored pop ∧ loop_free pop → mirrored pop' ∧ loop_free pop'.
Proof.
  intros Hset H [Hm Hl]. pose proof (set_group_linked _ _ _ _ Hset H) as Hlink.
  split.
  - intros l a b. rewrite !Hlink. apply Hm.
  - intros l a. rewrite Hlink. apply Hl.
Qed.

Lemma new_person_no_contacts (layer : string) (u a s : Z) :
  contacts_in layer (new_person u a s) = ∅.
Proof.
  unfold contacts_in, new_person. cbn [contacts].
  destruct (_ !! layer) as [c|] eqn:Hc; [|done].
  apply elem_of_list_to_map_2 in Hc. simpl in Hc.
  repeat (apply elem_of_cons in Hc as [[= _ ->]|Hc]; [done|]).
  by apply elem_of_nil in Hc.
Qed.

Lemma draw_people_no_contacts (ages : gmap Z Z) (uids : list Z)
    (people : list (Z * Person (gset Z))) (g g' : rng) :
  draw_people ages uids g = Ok (people, g') →
  Forall (λ up, ∀ layer, contacts_in layer up.2 = ∅) people.
Proof.
  revert people g g'. induction uids as [|u rest IH]; intros people g g' H; simpl in H.
  - apply ST_ret_Ok in H as [-> _]. constructor.
  - run_inv H. apply ST_ret_Ok in H as [-> _]. constructor.
    + intros layer. apply new_person_no_contacts.
    + by eapply IH.
Qed.

Lemma no_contacts_mirrored (people : list (Z * Person (gset Z))) :
  Forall (λ up, ∀ layer, contacts_in layer up.2 = ∅) people →
  mirrored (list_to_map people) ∧ loop_free (list_to_map people).
Proof.
  intros Hall.
  assert (∀ l a b, ¬ linked (list_to_map people) l a b) as Hnone.
  { intros l a b (pa & Hpa & Hb). apply elem_of_list_to_map_2 in Hpa.
    pose proof (proj1 (Forall_forall _ _) Hall _ Hpa l) as Hempty.
    simpl in Hempty. rewrite Hempty in Hb. by apply not_elem_of_empty in Hb. }
  split; [intros l a b H; by apply Hnone in H | intros l a; apply Hnone].
Qed.

(** The population dictionary that the contact routine builds is mirrored
    and free of loops in every layer. *)
Lemma spec_make_contacts_mirrored (caps : gmap string Z) (ltcf_degree : Z)
    (cfg : Config) (groups : Microstructure)
    (pop : gmap Z (Person (gset Z))) (g g' : rng) :
  spec_make_contacts caps ltcf_degree cfg groups g = Ok (pop, g') →
  mirrored pop ∧ loop_free pop.
Proof.
  unfold spec_make_contacts. intros H. run_inv H.
  repeat match goal with
  | Hl : lift _ _ = Ok _ |- _ => apply lift_Ok in Hl as [Hl ->]
  end.
  apply draw_people_no_contacts, no_contacts_mirrored in Hrun.
  apply set_group_mirrored in Hrun0; [|done|done].
  apply set_group_mirrored in Hrun1; [|done|done].
  apply set_group_mirrored in Hrun2; [|done|done].
  apply set_group_mirrored in Hrun3; [|done|done].
  apply connect_groups_mirrored in Hrun4; [|done].
  apply connect_groups_mirrored in Hrun5; [|done].
  apply connect_groups_mirrored in Hrun6; [|done].
  by apply connect_groups_mirrored in H.
Qed.

(** What the conversion of line 120 does to one person: each contact set
    becomes the list of its elements. *)
Lemma change_types_lookup (population : gmap Z (Person (gset Z))) (a : Z)
    (person : Person (list Z)) :
  change_types population !! a = Some person →
  ∃ person0, population !! a = Some person0
             ∧ uid person = uid person0 ∧ age person = age person0
             ∧ ∀ layer b, b ∈ contact_list layer person ↔ b ∈ contacts_in layer person0.
Proof.
  unfold change_types. rewrite lookup_fmap.
  destruct (population !! a) as [person0|]; [|done].
  simpl. intros [= <-]. exists person0. do 3 (split; [done|]).
  intros layer b. unfold contact_list, contacts_in. simpl. rewrite lookup_fmap.
  destruct (contacts person0 !! layer) as [c|]; simpl.
  - apply elem_of_elements.
  - split; [by intros ?%elem_of_nil | by intros ?%not_elem_of_empty].
Qed.

(** C9: in the population that the constructor stores (the dictionary of
    the contact routine with every contact set turned into a list), every
    layer is symmetric, and nobody is among their own contacts. *)
Theorem contact_layers_symmetric (caps : gmap string Z) (ltcf_degree : Z)
    (cfg : Config) (groups : Microstructure)
    (population : gmap Z (Person (gset Z))) (g g' : rng) :
  spec_make_contacts caps ltcf_degree cfg groups g = Ok (population, g') →
  ∀ layer a b person_a person_b,
    change_types population !! a = Some person_a →
    change_types population !! b = Some person_b →
    (b ∈ contact_list layer person_a ↔ a ∈ contact_list layer person_b)
    ∧ a ∉ contact_list layer person_a.
Proof.
  intros H layer a b pa pb Ha Hb.
  apply spec_make_contacts_mirrored in H as [Hmirrored Hloops].
  apply change_types_lookup in Ha as (pa0 & Ha & _ & _ & Hca).
  apply change_types_lookup in Hb as (pb0 & Hb & _ & _ & Hcb).
  rewrite Hca, Hcb. split; [split|].
  - intros Hin. destruct (Hmirrored layer a b) as (p & Hp & Hin'); [by exists pa0|].
    rewrite Hb in Hp. by injection Hp as <-.
  - intros Hin. destruct (Hmirrored layer b a) as (p & Hp & Hin'); [by exists pb0|].
    rewrite Ha in Hp. by injection Hp as <-.
  - rewrite Hca. intros Hin. apply (Hloops layer a). by exists pa0.
Qed.

(** ** The small world at work *)

Lemma small_sizes : sizes_at_least_one Small.tables.
Proof.
  intros sb sb_range Hsb.
  change (({[ 0 := [1; 2] ]} : gmap Z (list Z)) !! sb = Some sb_range) in Hsb.
  apply lookup_singleton_Some in Hsb as [_ <-].
  repeat constructor; lia.
Qed.

Lemma small_ratios : ratios_positive Small.tables.
Proof.
  intros sb sb_range Hsb.
  change (({[ 0 := [6%Q; 9%Q] ]} : gmap Z (list Q)) !! sb = Some sb_range) in Hsb.
  apply lookup_singleton_Some in Hsb as [_ <-].
  repeat constructor.
Qed.

Lemma small_never_adds_workers : never_adds_workers Small.ext.
Proof.
  split.
  - intros cfg schools p left g out p' g' H uid Hnone. simpl in H.
    by apply ST_ret_Ok in H as [[= _ <-] _].
  - intros cfg students teachers p left g out p' g' H uid Hnone. simpl in H.
    by apply ST_ret_Ok in H as [[= _ <-] _].
Qed.



Lemma facilities_have_residents_and_staff_witness :
  ∃ f w',
    generate_body Small.cfg Small.tables Small.ext 10 Small.world0 = Ok (f, w')
    ∧ Forall (λ fc, (1 ≤ length fc)%nat) (fr_facilities f)
    ∧ Forall (λ su, (1 ≤ length su)%nat) (facilities_staff_uids (fr_groups f)).
Proof.
  destruct small_run_ok as (f & w' & H). exists f, w'. split; [exact H|].
  destruct (facilities_have_residents_and_staff Small.cfg Small.tables Small.ext
              10 _ _ _ small_sizes small_ratios H) as (Hres & Hstaff & _).
  by split.
Defined.

(** C7 as stated fails when the size table offers a size of 0: the first
    facility of this run is created without a resident, and no staff is
    drawn for it. *)
Lemma facility_without_resident_or_staff :
  match generate_body Small.cfg Small.zero_size_tables Small.ext 10 Small.world0 with
  | Ok (f, _) =>
      fr_facilities f = [[]; [100]; [100]]
      ∧ facilities_staff_uids (fr_groups f) = [[]; [2]; [3]]
  | _ => False
  end.
Proof. vm_compute. split; reflexivity. Qed.



Lemma idle_pools_nonneg : counts_nonneg Small.idle_pools.
Proof.
  intros a c Hc. change (({[ 30 := 0 ]} : gmap Z Z) !! a = Some c) in Hc.
  apply lookup_singleton_Some in Hc as [_ <-]. lia.
Qed.

Lemma counters_stay_nonnegative_witness :
  draw_staff_member [30] Small.idle_pools (gen Small.world0) = Raise ValueError.
Proof.
  destruct (counters_stay_nonnegative Small.cfg Small.tables Small.idle_pools
              idle_pools_nonneg) as (_ & _ & Hzero).
  apply Hzero. intros a Ha. apply list_elem_of_singleton in Ha as ->. reflexivity.
Defined.

(** C4 as stated fails for the staff draw: with a potential worker aged 30
    on offer and the counter of age 30 at zero, the draw raises
    [ValueError]; the counter is not clamped and nobody is drawn. *)
Lemma staff_draw_raises_at_zero_counter :
  workers_by_age_to_assign_count Small.idle_pools !! 30 = Some 0
  ∧ potential_worker_uids_by_age Small.idle_pools !! 30 = Some [7]
  ∧ draw_staff_member [30] Small.idle_pools (gen Small.world0) = Raise ValueError
  ∧ raises (draw_staff 1 [30] Small.idle_pools [] [] (gen Small.world0)).
Proof.
  split; [reflexivity|]. split; [reflexivity|]. split; [reflexivity|].
  exists ValueError. reflexivity.
Qed.

Lemma staff_exhaustion_raises_witness :
  raises (staff_facilities [0] [1%Q] (KC_ratio_brackets Small.tables)
            (arange 20 61) Small.idle_pools [[70; 71; 72; 73; 74]] [] []
            (gen Small.world0)).
Proof.
  apply (staff_exhaustion_raises Small.cfg Small.tables Small.idle_pools
           [70; 71; 72; 73; 74] [] [] [] [0] [1%Q] (gen Small.world0)
           {| tape := Small.stream 1; pos := 1 |} (Some (15 # 2)%Q) 2).
  - reflexivity.
  - reflexivity.
  - vm_compute. lia.
Defined.

Lemma small_contacts_ok :
  ∃ population g' person_a person_b,
    spec_make_contacts (init_max_contacts None) 20 Small.cfg Small.three_people
      (gen Small.world0) = Ok (population, g')
    ∧ change_types population !! 1 = Some person_a
    ∧ change_types population !! 2 = Some person_b.
Proof.
  eexists _, _, _, _. split; [vm_compute; reflexivity|].
  split; vm_compute; reflexivity.
Qed.

Lemma contact_layers_symmetric_witness :
  ∃ population g' person_a person_b,
    spec_make_contacts (init_max_contacts None) 20 Small.cfg Small.three_people
      (gen Small.world0) = Ok (population, g')
    ∧ change_types population !! 1 = Some person_a
    ∧ change_types population !! 2 = Some person_b
    ∧ (2 ∈ contact_list "S" person_a ↔ 1 ∈ contact_list "S" person_b)
    ∧ 1 ∉ contact_list "S" person_a.
Proof.
  destruct small_contacts_ok as (population & g' & pa & pb & H & Ha & Hb).
  exists population, g', pa, pb. do 3 (split; [assumption|]).
  exact (contact_layers_symmetric _ _ _ _ _ _ _ H "S" 1 2 pa pb Ha Hb).
Defined.

(** ** More on the facility residents *)

Lemma swap_Permutation {A} (i j : nat) (l : list A) : swap i j l ≡ₚ l.
Proof.
  unfold swap. destruct (l !! i) as [x|] eqn:Hi; [|done].
  destruct (l !! j) as [y|] eqn:Hj; [|done].
  pose proof (lookup_lt_Some _ _ _ Hi) as Hli.
  pose proof (lookup_lt_Some _ _ _ Hj) as Hlj.
  apply Permutation_inj. split; [by rewrite !length_insert|].
  exists (λ k, if decide (k = i) then j else if decide (k = j) then i else k).
  split.
  - intros a b. repeat case_decide; intros; subst; congruence.
  - intros k. destruct (decide (k = i)) as [->|Hki].
    + by rewrite list_lookup_insert_eq by (by rewrite length_insert).
    + rewrite list_lookup_insert_ne by done.
      destruct (decide (k = j)) as [->|Hkj].
      * by rewrite list_lookup_insert_eq.
      * by rewrite list_lookup_insert_ne.
Qed.

Lemma shuffle_from_Permutation {A} (i : nat) (l l' : list A) (g g' : rng) :
  shuffle_from i l g = Ok (l', g') → l' ≡ₚ l.
Proof.
  revert l g. induction i as [|i IH]; intros l g H; simpl in H.
  - by apply ST_ret_Ok in H as [-> _].
  - run_inv H. apply IH in H. by rewrite H, swap_Permutation.
Qed.

(** [np.random.shuffle] rearranges the list it is given. *)
Lemma shuffle_Permutation {A} (l l' : list A) (g g' : rng) :
  shuffle l g = Ok (l', g') → l' ≡ₚ l.
Proof. apply shuffle_from_Permutation. Qed.

Lemma expected_users_by_age_ages (t : Tables) (n : Z) (expected : list (Z * Z)) :
  expected_users_by_age t n = Ok expected →
  expected.*1 = arange 60 101
  ∧ Forall2 (λ a ak, ak.1 = a ∧ expected_users t n a = Ok ak.2) (arange 60 101) expected.
Proof.
  unfold expected_users_by_age. generalize (arange 60 101). intros ages H.
  apply mapM_Ok in H.
  assert (Forall2 (λ a ak, ak.1 = a ∧ expected_users t n a = Ok ak.2) ages expected)
    as Hall.
  { eapply Forall2_impl; [exact H|]. intros a [a' k] Hk. simpl in *.
    run_inv Hk. by injection Hk as <- <-. }
  split; [|done]. clear H.
  induction Hall as [|a [a' k] ages expected [Ha _] _ IH]; [done|].
  rewrite fmap_cons. cbn [fst] in *. by rewrite IH, Ha.
Qed.

Lemma residents_by_age_elem (expected : list (Z * Z)) (a : Z) :
  a ∈ residents_by_age expected → a ∈ expected.*1.
Proof.
  unfold residents_by_age. induction expected as [|[b k] expected IH]; simpl.
  - by intros ?%elem_of_nil.
  - intros [Hin|Hin]%elem_of_app.
    + apply elem_of_replicate in Hin as [-> _]. left.
    + right. by apply IH.
Qed.

(** X1: lines 294-316: the facilities are a rearrangement of the expected
    residents, so every age keeps its number of residents, and every
    resident is aged between 60 and 100. *)
Theorem facilities_rearrange_expected_residents (fuel : nat) (t : Tables) (n : Z)
    (g g' : rng) (expected : list (Z * Z)) (facilities : list (list Z)) :
  make_facilities fuel t n g = Ok ((expected, facilities), g') →
  concat facilities ≡ₚ residents_by_age expected
  ∧ Forall (Forall (λ a, 60 ≤ a ≤ 100)) facilities.
Proof.
  intros H.
  assert (concat facilities ≡ₚ residents_by_age expected
          ∧ expected.*1 = arange 60 101) as [Hperm Hages].
  { unfold make_facilities in H. run_inv H.
    apply lift_Ok in Hrun as [Hexp ->]. apply lift_Ok in Hrun1 as [_ ->].
    apply ST_ret_Ok in H as [[= -> ->] _].
    apply shuffle_Permutation in Hrun0. apply place_residents_concat in Hrun2.
    simpl in Hrun2. rewrite Hrun2, Hrun0.
    split; [done|]. by apply expected_users_by_age_ages in Hexp as [-> _]. }
  split; [done|].
  apply Forall_concat. rewrite Hperm. apply Forall_forall. intros a Ha.
  apply residents_by_age_elem in Ha. rewrite Hages in Ha.
  apply elem_of_seqZ in Ha. lia.
Qed.

Lemma small_facilities_ok :
  ∃ expected facilities g',
    make_facilities 10 Small.tables 40 (gen Small.world0)
      = Ok ((expected, facilities), g').
Proof. eexists _, _, _. vm_compute. reflexivity. Qed.

Lemma facilities_rearrange_expected_residents_witness :
  ∃ expected facilities g',
    make_facilities 10 Small.tables 40 (gen Small.world0)
      = Ok ((expected, facilities), g')
    ∧ concat facilities ≡ₚ residents_by_age expected.
Proof.
  destruct small_facilities_ok as (expected & facilities & g' & H).
  exists expected, facilities, g'. split; [exact H|].
  exact (proj1 (facilities_rearrange_expected_residents _ _ _ _ _ _ _ H)).
Defined.

Lemma randint_bound (n i : nat) (g g' : rng) :
  (0 < n)%nat → randint n g = Ok (i, g') → (i < n)%nat.
Proof.
  intros Hn H. unfold randint in H. run_inv H.
  apply random_sample_inv in Hrun as [Hlo Hhi]. apply ST_ret_Ok in H as [-> _].
  assert (0 <= a * inject_Z (Z.of_nat n))%Q as Hnonneg.
  { apply Qmult_le_0_compat; [done|].
    change 0%Q with (inject_Z 0). rewrite <- Zle_Qle. lia. }
  assert (a * inject_Z (Z.of_nat n) < inject_Z (Z.of_nat n))%Q as Hbelow.
  { rewrite <- (Qmult_1_l (inject_Z (Z.of_nat n))) at 2.
    apply Qmult_lt_compat_r; [|done].
    change 0%Q with (inject_Z 0). rewrite <- Zlt_Qlt. lia. }
  pose proof (Qfloor_le (a * inject_Z (Z.of_nat n))) as Hfloor.
  pose proof (Qle_lt_trans _ _ _ Hfloor Hbelow) as Hlt.
  rewrite <- Zlt_Qlt in Hlt.
  assert (0 ≤ Qfloor (a * inject_Z (Z.of_nat n))).
  { change 0 with (Qfloor 0). by apply Qfloor_resp_le. }
  lia.
Qed.

Lemma randint_Ok (n : nat) (g : rng) : ∃ i g', randint n g = Ok (i, g').
Proof. eexists _, _. reflexivity. Qed.

(** [np.random.choice(a)] never fails on a non-empty list. *)
Lemma choice_total {A} (a : list A) (g : rng) :
  a ≠ [] → ∃ x g', choice a g = Ok (x, g') ∧ x ∈ a.
Proof.
  intros Hne. destruct a as [|y a]; [done|].
  destruct (randint_Ok (length (y :: a)) g) as (i & g' & Hi).
  assert (0 < length (y :: a))%nat as Hpos by (simpl; lia).
  pose proof (randint_bound _ _ _ _ Hpos Hi) as Hlt.
  destruct (lookup_lt_is_Some_2 (y :: a) i Hlt) as [x Hx].
  exists x, g'. split; [|by eapply list_elem_of_lookup_2].
  unfold choice, mbind, ST_bind. rewrite Hi. by rewrite Hx.
Qed.

Lemma searchsorted_total {A} (u acc : Q) (a : list A) (p : list Q) :
  length a = length p → (acc <= u)%Q → (u < acc + sumQ p)%Q →
  ∃ x, searchsorted u acc a p = Some x.
Proof.
  revert acc p. induction a as [|y a IH]; intros acc [|py p] Hlen Hacc Hu;
    try discriminate.
  - simpl in Hu. rewrite Qplus_0_r in Hu.
    exfalso. by apply (Qlt_not_le _ _ Hu).
  - simpl. destruct (Qlt_le_dec u (acc + py)); [eauto|].
    apply IH; [by injection Hlen | done |]. simpl in Hu. by rewrite <- Qplus_assoc.
Qed.

(** [np.random.choice(a, p=p)] never fails once [p] has passed its checks. *)
Lemma choice_p_total {A} (a : list A) (p : list Q) (g : rng) :
  a ≠ [] → length a = length p → valid_probabilities p = true →
  ∃ x g', choice_p a p g = Ok (x, g') ∧ x ∈ a.
Proof.
  intros Hne Hlen Hvalid.
  destruct (random_sample_Ok g) as (u & g' & Hu & Hlo & Hhi).
  pose proof Hvalid as Hsum. apply andb_true_iff in Hsum as [_ Hsum].
  apply Qeq_bool_iff in Hsum.
  destruct (searchsorted_total u 0 a p Hlen Hlo) as [x Hx].
  { rewrite Qplus_0_l, Hsum. done. }
  exists x, g'.
  assert (choice_p a p g = Ok (x, g')) as Hchoice.
  { unfold choice_p. destruct a as [|y a]; [done|].
    rewrite Hlen, Nat.eqb_refl, Hvalid. cbn [negb].
    unfold mbind, ST_bind. rewrite Hu. by rewrite Hx. }
  split; [done|].
  apply choice_p_positive in Hchoice as (i & px & Hi & _). by eapply list_elem_of_lookup_2.
Qed.

Lemma finishes_shuffle_from {A} (i : nat) (l : list A) : finishes (shuffle_from i l).
Proof.
  revert l. induction i as [|i IH]; intros l; simpl; [apply finishes_ret|].
  apply finishes_bind; [apply finishes_randint | intros j; apply IH].
Qed.

(** X2: lines 304-316: with facility sizes of at least 1 the [while] loop ends
    within as many iterations as there are residents to place. *)
Theorem make_facilities_ends (fuel : nat) (t : Tables) (n : Z)
    (expected : list (Z * Z)) (g : rng) :
  sizes_at_least_one t →
  expected_users_by_age t n = Ok expected →
  (length (residents_by_age expected) ≤ fuel)%nat →
  make_facilities fuel t n g ≠ OutOfFuel.
Proof.
  intros Hsizes Hexp Hfuel. unfold make_facilities.
  apply ST_bind_fuel; [apply finishes_lift; by rewrite Hexp|].
  intros expected' g1 [Hexp' ->]%lift_Ok. rewrite Hexp in Hexp'. injection Hexp' as <-.
  apply ST_bind_fuel; [apply finishes_shuffle_from|].
  intros all_residents g2 Hshuffle. apply shuffle_length in Hshuffle.
  apply ST_bind_fuel; [apply finishes_lift, values_at_fuel|].
  intros arr g3 _.
  apply ST_bind_fuel; [|intros; apply finishes_ret].
  apply place_residents_fuel; [|lia].
  intros sb sb_range size Hsb Hsize. specialize (Hsizes _ _ Hsb). simpl in Hsizes.
  by eapply Forall_forall in Hsizes.
Qed.

Lemma make_facilities_ends_witness :
  make_facilities 2 Small.tables 40 (gen Small.world0) ≠ OutOfFuel.
Proof.
  eapply (make_facilities_ends 2 Small.tables 40); [apply small_sizes | |].
  - vm_compute. reflexivity.
  - vm_compute. lia.
Defined.

(** X3: lines 304-316: when every size the size table offers is 0, the loop
    appends empty facilities for ever and no resident is ever placed. *)
Theorem zero_sizes_never_end (fuel : nat) (keys : list Z) (probs : list Q)
    (brackets : gmap Z (list Z)) (all_residents : list Z)
    (facilities : list (list Z)) (g : rng) :
  keys ≠ [] → length keys = length probs → valid_probabilities probs = true →
  (∀ sb, sb ∈ keys →
     ∃ sb_range, brackets !! sb = Some sb_range ∧ sb_range ≠ []
                 ∧ Forall (λ size, size = 0) sb_range) →
  all_residents ≠ [] →
  place_residents fuel keys probs brackets all_residents facilities g = OutOfFuel.
Proof.
  intros Hkeys Hlen Hvalid Hzero Hres. revert facilities g.
  induction fuel as [|fuel IH]; intros facilities g; simpl.
  - destruct all_residents; [done|]. reflexivity.
  - destruct (0 <? Z.of_nat (length all_residents)) eqn:Hguard.
    2: { apply no_resident_left in Hguard. done. }
    destruct (choice_p_total keys probs g Hkeys Hlen Hvalid) as (sb & g1 & Hsb & Hin).
    destruct (Hzero sb Hin) as (sb_range & Hrange & Hne & Hall).
    destruct (choice_total sb_range g1 Hne) as (size & g2 & Hsize & Hsin).
    assert (size = 0) as -> by (by eapply Forall_forall in Hall).
    unfold mbind, ST_bind. rewrite Hsb. unfold lift, getitem. rewrite Hrange, Hsize.
    apply Z.ltb_lt in Hguard.
    replace (Z.of_nat (length all_residents) <? 0) with false
      by (symmetry; apply Z.ltb_ge; lia).
    apply IH.
Qed.

Lemma zero_sizes_never_end_witness :
  place_residents 1000 [0] [1%Q] {[ 0 := [0] ]} [100; 100] [] (gen Small.world0)
    = OutOfFuel.
Proof.
  apply zero_sizes_never_end; try done.
  intros sb Hsb. apply list_elem_of_singleton in Hsb as ->.
  exists [0]. split; [reflexivity|]. split; [done|]. by repeat constructor.
Defined.

(** ** Rounding up the facility users *)

(** Lines 258-285: the expected users of an age are rounded up, so an age
    with a positive share has at least one user however small [n] is. *)
Lemma expected_users_at_least_one (t : Tables) (n a : Z) :
  0 < n → positive_usage t a → ∃ k, expected_users t n a = Ok k ∧ 1 ≤ k.
Proof.
  intros Hn (b & p & bracket & perc & Hb & Hp & Hp0 & Hbr & Hne & Hperc & Hperc0).
  unfold expected_users, getitem. rewrite Hb. simpl. rewrite Hp. simpl.
  rewrite Hbr. simpl. unfold fdiv.
  assert (0 < inject_Z (Z.of_nat (length bracket)))%Q as Hlen.
  { change 0%Q with (inject_Z 0). rewrite <- Zlt_Qlt. destruct bracket; [done|]. simpl. lia. }
  destruct (Qeq_bool (inject_Z (Z.of_nat (length bracket))) 0) eqn:Hzero.
  { apply Qeq_bool_iff in Hzero. rewrite Hzero in Hlen. by apply Qlt_irrefl in Hlen. }
  simpl. rewrite Hperc. simpl. eexists. split; [reflexivity|].
  set (x := (inject_Z n * p / inject_Z (Z.of_nat (length bracket)) * perc)%Q).
  assert (0 < x)%Q as Hx.
  { unfold x. apply Qmult_lt_0_compat; [|done].
    apply Qlt_shift_div_l; [done|]. rewrite Qmult_0_l.
    apply Qmult_lt_0_compat; [|done].
    change 0%Q with (inject_Z 0). by rewrite <- Zlt_Qlt. }
  pose proof (Qlt_le_trans _ _ _ Hx (Qle_ceiling x)) as Hceil.
  change 0%Q with (inject_Z 0) in Hceil. rewrite <- Zlt_Qlt in Hceil. lia.
Qed.

Lemma residents_by_age_length (expected : list (Z * Z)) :
  Forall (λ ak, 1 ≤ ak.2) expected →
  (length expected ≤ length (residents_by_age expected))%nat.
Proof.
  unfold residents_by_age. induction 1 as [|[a k] expected Hk _ IH]; simpl; [done|].
  rewrite length_app. unfold repeat_list in *. rewrite length_replicate. simpl in Hk. lia.
Qed.

(** X4: lines 258-338: when every age from 60 to 100 has a positive share of
    facility users, a population of any positive size gets at least 41
    facility residents, and households are generated for at most [n - 41]
    people. *)
Theorem at_least_one_resident_per_age (fuel : nat) (t : Tables) (n : Z)
    (g g' : rng) (expected : list (Z * Z)) (facilities : list (list Z)) :
  0 < n → (∀ a, 60 ≤ a ≤ 100 → positive_usage t a) →
  make_facilities fuel t n g = Ok ((expected, facilities), g') →
  41 ≤ sum_len facilities ∧ n_nonltcf n facilities ≤ n - 41.
Proof.
  intros Hn Hpos H.
  apply make_facilities_inv in H as (Hexp & Hlen & _).
  apply expected_users_by_age_ages in Hexp as [Hages Hall].
  assert (Forall (λ a, 60 ≤ a ≤ 100) (arange 60 101)) as Hrange.
  { apply Forall_forall. intros a Ha. apply elem_of_seqZ in Ha. lia. }
  assert (Forall (λ ak, 1 ≤ ak.2) expected) as Hone.
  { clear Hages Hlen. induction Hall as [|a [a' k] ages expected [_ Hk] _ IH];
      [constructor|].
    apply Forall_cons in Hrange as [Ha Hrange]. constructor; [|by apply IH].
    destruct (expected_users_at_least_one t n a Hn (Hpos a Ha)) as (k' & Hk' & Hone).
    simpl in *. rewrite Hk in Hk'. by injection Hk' as ->. }
  apply residents_by_age_length in Hone.
  assert (length expected = 41%nat) as Hcount.
  { rewrite <- (length_fmap fst), Hages. reflexivity. }
  unfold n_nonltcf. lia.
Qed.

Lemma elderly_positive_usage (a : Z) :
  60 ≤ a ≤ 100 → positive_usage Sample.elderly_tables a.
Proof.
  intros Ha. exists 0, (1 # 2)%Q, (seqZ 60 41), (1 # 10)%Q.
  split.
  { apply elem_of_list_to_map_1.
    - by apply (bool_decide_unpack _); vm_compute.
    - apply list_elem_of_fmap. exists a. split; [done|]. apply elem_of_seqZ. lia. }
  do 4 (split; [done|]). split; [|done].
  unfold ltcf_usage_key.
  destruct (a <? 65); [done|]. destruct (a <? 75); [done|]. by destruct (a <? 85).
Qed.

Lemma at_least_one_resident_per_age_witness :
  ∃ expected facilities g',
    make_facilities 50 Sample.elderly_tables 10 (gen Small.world0)
      = Ok ((expected, facilities), g')
    ∧ n_nonltcf 10 facilities ≤ -31.
Proof.
  assert (∃ expected facilities g',
            make_facilities 50 Sample.elderly_tables 10 (gen Small.world0)
              = Ok ((expected, facilities), g')) as (expected & facilities & g' & H).
  { eexists _, _, _. vm_compute. reflexivity. }
  exists expected, facilities, g'. split; [exact H|].
  refine (proj2 (at_least_one_resident_per_age 50 Sample.elderly_tables 10 _ _ _ _
                   _ elderly_positive_usage H)).
  lia.
Defined.

(** ** More on the facility staff *)

Lemma pool_uids_insert_other (range : list Z) (p : Pools) (a : Z) (uids : list Z)
    (pw counts : gmap Z Z) :
  a ∉ range →
  pool_uids range {| potential_worker_uids := pw;
                     potential_worker_uids_by_age :=
                       <[a := uids]> (potential_worker_uids_by_age p);
                     workers_by_age_to_assign_count := counts |}
  = pool_uids range p.
Proof.
  unfold pool_uids. simpl. induction range as [|b range IH]; intros Hout; [done|].
  apply not_elem_of_cons in Hout as [Hne Hout]. simpl.
  rewrite lookup_insert_ne by done. by rewrite IH.
Qed.

Lemma pool_uids_take_first (range : list Z) (p : Pools) (a uid : Z) (uids : list Z)
    (pw counts : gmap Z Z) :
  NoDup range → a ∈ range →
  potential_worker_uids_by_age p !! a = Some (uid :: uids) →
  pool_uids range p
  ≡ₚ uid :: pool_uids range
              {| potential_worker_uids := pw;
                 potential_worker_uids_by_age :=
                   <[a := uids]> (potential_worker_uids_by_age p);
                 workers_by_age_to_assign_count := counts |}.
Proof.
  intros Hnd Hin Hby. induction Hnd as [|b range Hb Hnd IH]; [by apply elem_of_nil in Hin|].
  apply elem_of_cons in Hin as [<-|Hin].
  - change (pool_uids (a :: range) ?q)
      with (default [] (potential_worker_uids_by_age q !! a) ++ pool_uids range q).
    rewrite pool_uids_insert_other by done. simpl.
    by rewrite lookup_insert_eq, Hby.
  - change (pool_uids (b :: range) ?q)
      with (default [] (potential_worker_uids_by_age q !! b) ++ pool_uids range q).
    assert (a ≠ b) by (by intros ->). simpl.
    rewrite lookup_insert_ne by done. rewrite (IH Hin).
    by rewrite Permutation_middle.
Qed.

(** The loop of lines 440-451, once more: the ages it appends belong to the
    staff range, there is one age per worker, and the workers drawn together
    with the workers left are the workers that were on offer. *)
Lemma draw_staff_drawn (n_staff : nat) (range : list Z) (p p' : Pools)
    (acc_ages acc_uids new_staff new_staff_uids : list Z) (g g' : rng) :
  NoDup range →
  draw_staff n_staff range p acc_ages acc_uids g
    = Ok ((new_staff, new_staff_uids), p', g') →
  ∃ ages drawn,
    new_staff = acc_ages ++ ages ∧ new_staff_uids = acc_uids ++ drawn
    ∧ length ages = n_staff ∧ length drawn = n_staff
    ∧ Forall (λ a, a ∈ range) ages
    ∧ drawn ++ pool_uids range p' ≡ₚ pool_uids range p.
Proof.
  intros Hnd. revert p acc_ages acc_uids g.
  induction n_staff as [|k IH]; intros p acc_ages acc_uids g H; simpl in H.
  - apply ST_ret_Ok in H as [[= -> -> ->] ->]. exists [], [].
    by rewrite !(right_id_L [] (++)).
  - run_inv H.
    apply draw_staff_member_inv in Hrun as (c & uids & Hin & Hc & Hby & -> & _).
    apply IH in H as (ages & drawn & -> & -> & Hla & Hld & Hall & Hperm).
    eexists (_ :: ages), (_ :: drawn). rewrite <- !(assoc_L (++)). simpl.
    do 2 (split; [done|]). split; [by rewrite Hla|]. split; [by rewrite Hld|].
    split; [by constructor|].
    symmetry. etrans; [eapply pool_uids_take_first; eassumption|].
    constructor. symmetry. exact Hperm.
Qed.

Lemma staff_facilities_drawn (keys : list Z) (arr : list Q)
    (brackets : gmap Z (list Q)) (range : list Z) (p p' : Pools)
    (facilities acc_ages acc_uids staff staff_uids : list (list Z)) (g g' : rng) :
  NoDup range →
  staff_facilities keys arr brackets range p facilities acc_ages acc_uids g
    = Ok ((staff, staff_uids), p', g') →
  ∃ new_ages new_uids,
    staff = acc_ages ++ new_ages ∧ staff_uids = acc_uids ++ new_uids
    ∧ Forall2 (λ ages uids, length ages = length uids ∧ Forall (λ a, a ∈ range) ages)
        new_ages new_uids
    ∧ concat new_uids ++ pool_uids range p' ≡ₚ pool_uids range p.
Proof.
  intros Hnd. revert p acc_ages acc_uids g.
  induction facilities as [|fc rest IH]; intros p acc_ages acc_uids g H; simpl in H.
  - apply ST_ret_Ok in H as [[= -> -> ->] ->]. exists [], [].
    rewrite !(right_id_L [] (++)). simpl.
    do 2 (split; [done|]). split; [constructor | done].
  - run_inv H. unfold staff_facility in Hrun. run_inv Hrun.
    apply draw_staff_drawn in Hrun as (ages & drawn & -> & -> & Hla & Hld & Hall & Hperm);
      [|done].
    apply IH in H as (more_ages & more_uids & -> & -> & Hall' & Hperm').
    exists (ages :: more_ages), (drawn :: more_uids).
    rewrite <- !(assoc_L (++)). simpl. do 2 (split; [done|]). split.
    + constructor; [|done]. split; [congruence | done].
    + by rewrite <- (assoc_L (++)), Hperm'.
Qed.

(** X5: lines 419-454: every staff member is aged within the configured staff
    age range, the age lists and the uid lists of the facilities match in
    length, and the staff drawn together with the workers left over are the
    workers that were on offer for the range; over a pool that lists nobody
    twice, nobody is drawn twice and nobody drawn is left on offer. *)
Theorem staff_within_range_and_distinct (cfg : Config) (t : Tables) (p p' : Pools)
    (facilities staff staff_uids : list (list Z)) (g g' : rng) :
  assign_facility_staff cfg t p facilities g = Ok ((staff, staff_uids), p', g') →
  let range := arange (ltcf_staff_age_min cfg) (ltcf_staff_age_max cfg + 1) in
  Forall2 (λ ages uids,
      length ages = length uids
      ∧ Forall (λ a, ltcf_staff_age_min cfg ≤ a ≤ ltcf_staff_age_max cfg) ages)
    staff staff_uids
  ∧ concat staff_uids ++ pool_uids range p' ≡ₚ pool_uids range p
  ∧ (NoDup (pool_uids range p) →
     NoDup (concat staff_uids)
     ∧ ∀ uid, uid ∈ concat staff_uids → uid ∉ pool_uids range p').
Proof.
  intros H range. subst range. unfold assign_facility_staff in H. run_inv H.
  clear Hrun.
  apply staff_facilities_drawn in H as (ages & uids & -> & -> & Hall & Hperm);
    [|apply NoDup_arange].
  simpl. split; [|split; [done|]].
  - eapply Forall2_impl; [exact Hall|]. intros sa su [Hlen Hin]. split; [done|].
    eapply Forall_impl; [exact Hin|]. intros x Hx. apply elem_of_seqZ in Hx. lia.
  - intros Hnodup. rewrite <- Hperm in Hnodup.
    apply NoDup_app in Hnodup as (Hnd & Hdisj & _). by split.
Qed.

Lemma staff_within_range_and_distinct_witness :
  ∃ staff staff_uids p' g',
    assign_facility_staff Small.cfg Small.tables Sample.staff_pools
      [[100; 100; 100]; [100]] (gen Small.world0)
      = Ok ((staff, staff_uids), p', g')
    ∧ NoDup (concat staff_uids).
Proof.
  assert (∃ staff staff_uids p' g',
            assign_facility_staff Small.cfg Small.tables Sample.staff_pools
              [[100; 100; 100]; [100]] (gen Small.world0)
              = Ok ((staff, staff_uids), p', g'))
    as (staff & staff_uids & p' & g' & H).
  { eexists _, _, _, _. vm_compute. reflexivity. }
  exists staff, staff_uids, p', g'. split; [exact H|].
  apply (staff_within_range_and_distinct _ _ _ _ _ _ _ _ _ H).
  by apply (bool_decide_unpack _); vm_compute.
Defined.

(** ** More on the residents leaving the pools *)

Lemma list_remove_absent `{EqDecision A} (x : A) (l : list A) :
  x ∉ l → list_remove x l = Raise ValueError.
Proof.
  induction l as [|y l IH]; intros Hout; simpl; [done|].
  apply not_elem_of_cons in Hout as [Hne Hout].
  rewrite decide_False by done. by rewrite IH.
Qed.

(** X6: lines 397-403, the failures and the case without effect: a resident
    without an age raises [KeyError]; a resident who is not a potential
    worker leaves the pools as they are; a potential worker whose age has no
    list raises [KeyError], and one who is missing from the list of their
    age raises [ValueError]. *)
Theorem remove_resident_edge_cases (age_by_uid : gmap Z Z) (p : Pools) (uid : Z) :
  (age_by_uid !! uid = None → remove_resident age_by_uid p uid = Raise KeyError)
  ∧ (is_Some (age_by_uid !! uid) → potential_worker_uids p !! uid = None →
     remove_resident age_by_uid p uid = Ok p)
  ∧ (∀ a, age_by_uid !! uid = Some a → is_Some (potential_worker_uids p !! uid) →
       potential_worker_uids_by_age p !! a = None →
       remove_resident age_by_uid p uid = Raise KeyError)
  ∧ (∀ a uids, age_by_uid !! uid = Some a →
       is_Some (potential_worker_uids p !! uid) →
       potential_worker_uids_by_age p !! a = Some uids → uid ∉ uids →
       remove_resident age_by_uid p uid = Raise ValueError).
Proof.
  unfold remove_resident, getitem. repeat split.
  - by intros ->.
  - intros [a ->] Hnone. simpl. rewrite decide_False; [done|].
    rewrite Hnone. by intros [? ?].
  - intros a -> Hin Hnone. simpl. rewrite decide_True by done. by rewrite Hnone.
  - intros a uids -> Hin Hby Hout. simpl. rewrite decide_True by done.
    rewrite Hby. simpl. by rewrite list_remove_absent.
Qed.

Lemma remove_resident_edge_cases_witness :
  remove_resident {[ 7 := 30 ]} Small.idle_pools 8 = Raise KeyError
  ∧ remove_resident {[ 8 := 30 ]} Small.idle_pools 8 = Ok Small.idle_pools.
Proof.
  split.
  - apply (remove_resident_edge_cases {[ 7 := 30 ]} Small.idle_pools 8). reflexivity.
  - apply (remove_resident_edge_cases {[ 8 := 30 ]} Small.idle_pools 8).
    + by exists 30.
    + reflexivity.
Defined.

Lemma remove_resident_frame (d : gmap Z Z) (p p' : Pools) (uid : Z) :
  remove_resident d p uid = Ok p' →
  (∀ a, d !! uid ≠ Some a →
        potential_worker_uids_by_age p' !! a = potential_worker_uids_by_age p !! a
        ∧ workers_by_age_to_assign_count p' !! a
          = workers_by_age_to_assign_count p !! a)
  ∧ (∀ a, option_Forall2 (λ c' c, c - 1 ≤ c' ≤ c)
            (workers_by_age_to_assign_count p' !! a)
            (workers_by_age_to_assign_count p !! a)).
Proof.
  unfold remove_resident. intros H. run_inv H.
  unfold getitem in Hrun. destruct (d !! uid) as [aindex|] eqn:Hd; [|done].
  injection Hrun as <-.
  destruct (decide (is_Some (potential_worker_uids p !! uid))) as [Hin|Hout].
  - run_inv H. injection H as <-. simpl.
    unfold getitem in Hrun1.
    destruct (workers_by_age_to_assign_count p !! aindex) as [c|] eqn:Hc; [|done].
    injection Hrun1 as <-. split.
    + intros b Hb. assert (aindex ≠ b) by congruence.
      rewrite lookup_insert_ne by done.
      destruct (0 <? c); [by rewrite lookup_insert_ne|done].
    + intros b. destruct (0 <? c) eqn:Hpos.
      * destruct (decide (aindex = b)) as [<-|Hne].
        -- rewrite lookup_insert_eq, Hc. constructor. lia.
        -- rewrite lookup_insert_ne by done.
           destruct (_ !! b); constructor. lia.
      * destruct (_ !! b); constructor. lia.
  - injection H as <-. split; [done|].
    intros b. destruct (_ !! b); constructor. lia.
Qed.

(** X7: lines 396-403: when the residents have left, exactly they are gone
    from the dictionary of potential workers; the lists and the counters of
    the ages that no resident has are untouched; and no counter has grown
    or appeared. *)
Theorem residents_leave_and_nobody_else (age_by_uid : gmap Z Z) (p p' : Pools)
    (facilities_by_uids : list (list Z)) :
  remove_residents age_by_uid p facilities_by_uids = Ok p' →
  (∀ uid, potential_worker_uids p' !! uid
          = if decide (uid ∈ concat facilities_by_uids) then None
            else potential_worker_uids p !! uid)
  ∧ (∀ a, (∀ uid, uid ∈ concat facilities_by_uids → age_by_uid !! uid ≠ Some a) →
          potential_worker_uids_by_age p' !! a = potential_worker_uids_by_age p !! a
          ∧ workers_by_age_to_assign_count p' !! a
            = workers_by_age_to_assign_count p !! a)
  ∧ (∀ a, option_Forall2 (λ c' c, c' ≤ c)
            (workers_by_age_to_assign_count p' !! a)
            (workers_by_age_to_assign_count p !! a)).
Proof.
  intros H. split; [exact (remove_residents_gone _ _ _ _ H)|].
  assert (∀ uids q q',
            remove_residents_of age_by_uid q uids = Ok q' →
            (∀ a, (∀ uid, uid ∈ uids → age_by_uid !! uid ≠ Some a) →
                  potential_worker_uids_by_age q' !! a
                  = potential_worker_uids_by_age q !! a
                  ∧ workers_by_age_to_assign_count q' !! a
                    = workers_by_age_to_assign_count q !! a)
            ∧ (∀ a, option_Forall2 (λ c' c, c' ≤ c)
                      (workers_by_age_to_assign_count q' !! a)
                      (workers_by_age_to_assign_count q !! a))) as Hof.
  { induction uids as [|uid uids IH]; intros q q' Hq; simpl in Hq.
    - injection Hq as <-. split; [done|].
      intros a. destruct (_ !! a); constructor. lia.
    - run_inv Hq. apply remove_resident_frame in Hrun as [Hother Hle].
      apply IH in Hq as [Hother' Hle']. split.
      + intros b Hb. destruct (Hother' b) as [-> ->].
        { intros u Hu. apply Hb. by right. }
        apply Hother, Hb. left.
      + intros b. specialize (Hle b). specialize (Hle' b).
        destruct Hle'; inversion Hle; subst; constructor; lia. }
  revert p H. induction facilities_by_uids as [|fc rest IH]; intros p H; simpl in H.
  - injection H as <-. split; [done|].
    intros a. destruct (_ !! a); constructor. lia.
  - run_inv H. apply Hof in Hrun as [Hother Hle].
    apply IH in H as [Hother' Hle']. split.
    + intros b Hb. destruct (Hother' b) as [-> ->].
      { intros u Hu. apply Hb. simpl. apply elem_of_app. by right. }
      apply Hother. intros u Hu. apply Hb. simpl. apply elem_of_app. by left.
    + intros b. specialize (Hle b). specialize (Hle' b).
      destruct Hle'; inversion Hle; subst; constructor; lia.
Qed.

Lemma residents_leave_and_nobody_else_witness :
  ∃ p', remove_residents {[ 7 := 30 ]} Small.idle_pools [[7]] = Ok p'
        ∧ potential_worker_uids p' !! 7 = None.
Proof.
  eexists. split; [reflexivity|].
  refine (eq_trans (proj1 (residents_leave_and_nobody_else {[ 7 := 30 ]}
                             Small.idle_pools _ [[7]] eq_refl) 7) _).
  reflexivity.
Defined.

(** ** The size of a staff *)



(** X9: lines 429-437: what [staff_needed] does with a ratio that is not
    positive.  An empty ratio bracket and a ratio of zero raise; a negative
    ratio asks for no staff at all. *)
Theorem staff_needed_edge_cases (n_residents : Z) (ratio : Q) :
  staff_needed n_residents None = Raise ValueError
  ∧ (0 < n_residents → staff_needed n_residents (Some 0%Q) = Raise OverflowError)
  ∧ ((ratio < 0)%Q → 0 ≤ n_residents →
     ∃ n_staff, staff_needed n_residents (Some ratio) = Ok n_staff ∧ n_staff ≤ 0).
Proof.
  split; [done|]. split.
  - intros Hpos. unfold staff_needed. simpl.
    destruct (decide (n_residents = 0)); [lia | done].
  - intros Hneg Hres. unfold staff_needed.
    assert (ratio / 3 < 0)%Q as Hthird.
    { apply Qlt_shift_div_r; [done|]. by rewrite Qmult_0_l. }
    destruct (Qeq_bool (ratio / 3) 0) eqn:Hzero.
    { apply Qeq_bool_iff in Hzero. rewrite Hzero in Hthird. by apply Qlt_irrefl in Hthird. }
    eexists. split; [reflexivity|].
    change 0 with (Qceiling 0). apply Qceiling_resp_le.
    assert (0 < - (ratio / 3))%Q as Hpos'.
    { apply (Qplus_lt_l _ _ (ratio / 3)). ring_simplify. done. }
    setoid_replace (inject_Z n_residents / (ratio / 3))%Q
      with (- (inject_Z n_residents / - (ratio / 3)))%Q using relation Qeq.
    2: { field. intros Hz. rewrite Hz in Hneg. by apply Qlt_irrefl in Hneg. }
    apply (Qopp_le_compat 0). apply Qle_shift_div_l; [done|]. rewrite Qmult_0_l.
    change 0%Q with (inject_Z 0). by rewrite <- Zle_Qle.
Qed.

Lemma staff_needed_edge_cases_witness :
  ∃ n_staff, staff_needed 5 (Some (-3 # 1)%Q) = Ok n_staff ∧ n_staff ≤ 0.
Proof.
  apply (staff_needed_edge_cases 5 (-3 # 1)); [reflexivity | lia].
Defined.

(** ** Facilities and households among the homes *)

(** X10: lines 350-354 and 470: uids are assigned to the facilities followed by
    the households; the first [len(facilities)] groups of the result are the
    facilities, the others are the households, and together they are all
    the groups that were given uids. *)
Theorem homes_split_into_facilities_and_households (cfg : Config) (t : Tables)
    (ext : Externals) (fuel : nat) (w w' : world) (f : Frame) :
  generate_body cfg t ext fuel w = Ok (f, w') →
  ∃ households all_by_uids g g',
    fr_homes f = fr_facilities f ++ households
    ∧ assign_uids_by_homes ext (fr_homes f) g
      = Ok ((all_by_uids, age_by_uid_dic (fr_groups f)), g')
    ∧ facilities_by_uids (fr_groups f) = take (length (fr_facilities f)) all_by_uids
    ∧ facilities_by_uids (fr_groups f) ++ homes_by_uids (fr_groups f) = all_by_uids
    ∧ (length all_by_uids = length (fr_homes f) →
       length (facilities_by_uids (fr_groups f)) = length (fr_facilities f)
       ∧ length (homes_by_uids (fr_groups f)) = length households).
Proof.
  unfold generate_body. intros H. run_steps H.
  match goal with
  | Hassign : assign_uids_by_homes _ (?fac ++ ?hh) ?g = Ok ((?all, _), ?g') |- _ =>
      exists hh, all, g, g'
  end.
  cbn [fr_homes fr_facilities fr_groups facilities_by_uids homes_by_uids age_by_uid_dic].
  split; [done|]. split; [done|].
  unfold slice_to, slice_from.
  replace (0 <=? Z.of_nat (length l0)) with true by (symmetry; apply Z.leb_le; lia).
  rewrite Nat2Z.id. split; [done|].
  match goal with
  | |- context [0 <=? Z.of_nat ?k] =>
      replace (0 <=? Z.of_nat k) with true by (symmetry; apply Z.leb_le; lia)
  end.
  rewrite Nat2Z.id. split.
  - rewrite length_take. destruct (Nat.min_spec (length l0) (length l1)) as [[_ ->]|[Hge ->]].
    + apply take_drop.
    + rewrite take_ge by lia. rewrite drop_all. apply (right_id_L [] (++)).
  - intros Hlen. rewrite length_app in Hlen.
    rewrite length_drop, !length_take. lia.
Qed.

Lemma homes_split_into_facilities_and_households_witness :
  ∃ f w',
    generate_body Small.cfg Small.tables Small.ext 10 Small.world0 = Ok (f, w')
    ∧ ∃ households, fr_homes f = fr_facilities f ++ households.
Proof.
  destruct small_run_ok as (f & w' & H). exists f, w'. split; [exact H|].
  destruct (homes_split_into_facilities_and_households _ _ _ _ _ _ _ H)
    as (households & _ & _ & _ & Hhomes & _).
  by exists households.
Defined.

(** ** The stored population *)

(** X11: lines 117-120: the conversion keeps every person and every attribute,
    and turns each contact set into a list of the same members without
    repetition. *)
Theorem change_types_keeps_people (population : gmap Z (Person (gset Z)))
    (a : Z) (person : Person (gset Z)) :
  population !! a = Some person →
  ∃ stored,
    change_types population !! a = Some stored
    ∧ uid stored = uid person ∧ age stored = age person ∧ sex stored = sex person
    ∧ hhid stored = hhid person ∧ scid stored = scid person
    ∧ sc_type stored = sc_type person ∧ wpid stored = wpid person
    ∧ snfid stored = snfid person
    ∧ ∀ layer,
        option_Forall2
          (λ (l : list Z) (s : gset Z),
             NoDup l ∧ length l = size s ∧ ∀ b, b ∈ l ↔ b ∈ s)
          (contacts stored !! layer) (contacts person !! layer).
Proof.
  intros Ha. unfold change_types. rewrite lookup_fmap, Ha. simpl.
  eexists. split; [reflexivity|]. simpl. do 8 (split; [done|]).
  intros layer. rewrite lookup_fmap.
  destruct (contacts person !! layer) as [s|]; constructor.
  split; [apply NoDup_elements|]. split; [done|].
  intros b. apply elem_of_elements.
Qed.

Lemma change_types_keeps_people_witness :
  ∃ stored,
    change_types {[ 3 := new_person 3 30 1 ]} !! 3 = Some stored ∧ age stored = 30.
Proof.
  destruct (change_types_keeps_people {[ 3 := new_person 3 30 1 ]} 3
              (new_person 3 30 1) (lookup_singleton_eq _ _))
    as (stored & Hstored & _ & Hage & _).
  exists stored. split; [exact Hstored | exact Hage].
Defined.

(** Nobody appears in the stored population who was not generated. *)
Lemma change_types_dom (population : gmap Z (Person (gset Z))) :
  dom (change_types population) = dom population.
Proof. unfold change_types. apply dom_fmap_L. Qed.

(** ** The ages left for the households *)





(** ** The share of facility users *)

Lemma usage_rates_value (df : FacilityTable) :
  let users fk ab :=
    (percent_of_users df fk ab / 100 * inject_Z (number_of_users df fk)
     * local_pop / state_pop_2018)%Q in
  let rate ab share :=
    ((0 + users "Nursing home" ab + users "Residential care community" ab)
     / (share / 100) / local_pop)%Q in
  usage_rates df
  = Ok (delete "75-84" (delete "65-74"
          (<["80-84" := rate "75–84" (43 # 10)%Q]>
             (<["75-79" := rate "75–84" (43 # 10)%Q]>
                (<["70-74" := rate "65–74" (95 # 10)%Q]>
                   (<["65-69" := rate "65–74" (95 # 10)%Q]>
                      (<["85-100" := rate "85 and over" (18 # 10)%Q]>
                         (<["75-84" := rate "75–84" (43 # 10)%Q]>
                            (<["65-74" := rate "65–74" (95 # 10)%Q]>
                               (<["60-64" := rate "Under 65" (63 # 10)%Q]> ∅)))))))))).
Proof. intros users rate. subst users rate. vm_compute. reflexivity. Qed.

(** X13: lines 136-245: the usage rates always come out, under exactly the six
    keys that lines 263-284 may read, and the rate of a key is the number of
    facility users of its bracket over the people of the state in that
    bracket: the size of the local population, [pop = 2.25e6], cancels.
    Whatever the age, the key that the branches of lines 263-284 read is
    there. *)
Theorem usage_rates_closed_form (df : FacilityTable) :
  ∃ perc,
    usage_rates df = Ok perc
    ∧ dom perc = list_to_set usage_sources.*1
    ∧ (∀ key ab share, (key, (ab, share)) ∈ usage_sources →
        ∃ rate, perc !! key = Some rate
                ∧ (rate == users_in_bracket df ab / (state_pop_2018 * share))%Q)
    ∧ ∀ a, ∃ rate, getitem perc (ltcf_usage_key a) = Ok rate.
Proof.
  rewrite usage_rates_value. eexists. split; [reflexivity|]. split; [|split].
  - vm_compute. reflexivity.
  - intros key ab share Hin. unfold usage_sources in Hin.
    repeat (apply elem_of_cons in Hin as [[= -> -> ->]|Hin]);
      [..|by apply elem_of_nil in Hin];
      (eexists; split;
       [ repeat (rewrite lookup_delete_ne by done);
         repeat (rewrite lookup_insert_ne by done);
         apply lookup_insert_eq
       | unfold users_in_bracket, facility_keys, local_pop, state_pop_2018;
         simpl; field ]).
  - intros a. unfold ltcf_usage_key, getitem.
    destruct (a <? 65); [|destruct (a <? 75); [|destruct (a <? 85)]];
      repeat (rewrite lookup_delete_ne by done);
      repeat (rewrite lookup_insert_ne by done);
      rewrite lookup_insert_eq; eauto.
Qed.

(** ** The sizes of the facilities *)

Lemma place_residents_done (fuel : nat) (keys : list Z) (probs : list Q)
    (brackets : gmap Z (list Z)) (acc : list (list Z)) (g : rng) :
  place_residents fuel keys probs brackets [] acc g = Ok (acc, g).
Proof. by destruct fuel. Qed.

Lemma place_residents_sizes (fuel : nat) (keys : list Z) (probs : list Q)
    (brackets : gmap Z (list Z)) (all_residents : list Z)
    (acc facilities : list (list Z)) (g g' : rng) :
  (∀ sb sb_range size, brackets !! sb = Some sb_range → size ∈ sb_range → 1 ≤ size) →
  place_residents fuel keys probs brackets all_residents acc g = Ok (facilities, g') →
  ∃ new sampled,
    facilities = acc ++ new
    ∧ Forall2 (λ fc size, size_on_offer brackets size ∧ Z.of_nat (length fc) ≤ size)
        new sampled
    ∧ ∀ i fc size, new !! i = Some fc → sampled !! i = Some size →
        (S i < length new)%nat → Z.of_nat (length fc) = size.
Proof.
  intros Hsizes. revert all_residents acc g.
  induction fuel as [|fuel IH]; intros res acc g H; simpl in H.
  - destruct (0 <? Z.of_nat (length res)); [done|].
    apply ST_ret_Ok in H as [-> _]. exists [], [].
    rewrite (right_id_L [] (++)). split; [done|]. split; [constructor|].
    intros i fc size Hi. by rewrite lookup_nil in Hi.
  - destruct (0 <? Z.of_nat (length res)) eqn:Hguard.
    2: { apply ST_ret_Ok in H as [-> _]. exists [], [].
         rewrite (right_id_L [] (++)). split; [done|]. split; [constructor|].
         intros i fc size Hi. by rewrite lookup_nil in Hi. }
    apply Z.ltb_lt in Hguard. run_inv H.
    apply lift_Ok in Hrun0 as [Hget ->]. unfold getitem in Hget.
    destruct (brackets !! a) as [sb_range|] eqn:Hsb; [|done]. injection Hget as ->.
    apply choice_elem in Hrun1. pose proof (Hsizes _ _ _ Hsb Hrun1) as Hone.
    set (size := if Z.of_nat (length res) <? a1 then Z.of_nat (length res) else a1) in H.
    assert (1 ≤ size ≤ a1 ∧ size ≤ Z.of_nat (length res)) as Hsize.
    { unfold size. destruct (Z.of_nat (length res) <? a1) eqn:Hclamp;
        [apply Z.ltb_lt in Hclamp | apply Z.ltb_ge in Hclamp]; lia. }
    assert (length (slice_to size res) = Z.to_nat size) as Hlen.
    { unfold slice_to. replace (0 <=? size) with true by (symmetry; apply Z.leb_le; lia).
      rewrite length_take. lia. }
    destruct (decide (size = Z.of_nat (length res))) as [Hall|Hpart].
    + assert (slice_from size res = []) as Hrest.
      { unfold slice_from.
        replace (0 <=? size) with true by (symmetry; apply Z.leb_le; lia).
        apply drop_ge. lia. }
      rewrite Hrest, place_residents_done in H. injection H as <- <-.
      exists [slice_to size res], [a1]. split; [done|]. split.
      * constructor; [|constructor]. split; [by exists a, a0 | lia].
      * intros i fc sz _ _ Hi. simpl in Hi. lia.
    + assert (size = a1) as Hexact.
      { unfold size in *. destruct (Z.of_nat (length res) <? a1); [done|lia]. }
      apply IH in H as (new & sampled & -> & Hall & Hexact').
      exists (slice_to size res :: new), (a1 :: sampled).
      rewrite <- (assoc_L (++)). split; [done|]. split.
      * constructor; [|done]. split; [by exists a, a0 | lia].
      * intros [|i] fc sz Hfc Hsz Hi; simpl in *.
        -- injection Hfc as <-. injection Hsz as <-. lia.
        -- eapply Hexact'; [done | done | lia].
Qed.

(** X14: lines 304-316: over a size table with sizes of at least 1, every
    facility is no larger than a size on offer, and every facility but the
    last has exactly the size that was sampled for it. *)
Theorem facility_sizes_come_from_the_table (fuel : nat) (t : Tables) (n : Z)
    (g g' : rng) (expected : list (Z * Z)) (facilities : list (list Z)) :
  sizes_at_least_one t →
  make_facilities fuel t n g = Ok ((expected, facilities), g') →
  ∃ sampled,
    Forall2 (λ fc size,
        size_on_offer (KC_residents_size_brackets t) size
        ∧ Z.of_nat (length fc) ≤ size)
      facilities sampled
    ∧ ∀ i fc size, facilities !! i = Some fc → sampled !! i = Some size →
        (S i < length facilities)%nat → Z.of_nat (length fc) = size.
Proof.
  intros Hsizes H. unfold make_facilities in H. run_inv H.
  apply ST_ret_Ok in H as [[= -> ->] _].
  apply place_residents_sizes in Hrun2 as (new & sampled & -> & Hall & Hexact).
  - by exists sampled.
  - intros sb sb_range size Hsb Hsize. specialize (Hsizes _ _ Hsb). simpl in Hsizes.
    by eapply Forall_forall in Hsizes.
Qed.

Lemma facility_sizes_come_from_the_table_witness :
  ∃ expected facilities g' sampled,
    make_facilities 10 Small.tables 40 (gen Small.world0)
      = Ok ((expected, facilities), g')
    ∧ Forall2 (λ fc size,
          size_on_offer (KC_residents_size_brackets Small.tables) size
          ∧ Z.of_nat (length fc) ≤ size)
        facilities sampled.
Proof.
  destruct small_facilities_ok as (expected & facilities & g' & H).
  destruct (facility_sizes_come_from_the_table _ _ _ _ _ _ _ small_sizes H)
    as (sampled & Hall & _).
  by exists expected, facilities, g', sampled.
Defined.

(** ** A draw that cannot be served *)

Lemma getitem_unfold `{Countable K} {V} (d : gmap K V) (k : K) :
  getitem d k = match d !! k with Some v => Ok v | None => Raise KeyError end.
Proof. reflexivity. Qed.

Lemma values_at_missing {V} (d : gmap Z V) (keys : list Z) (a : Z) :
  a ∈ keys → d !! a = None → values_at d keys = Raise KeyError.
Proof.
  unfold values_at. induction keys as [|k keys IH]; intros Hin Hnone.
  - by apply elem_of_nil in Hin.
  - cbn [mapM]. rewrite (getitem_unfold d k).
    destruct (d !! k) as [v|] eqn:Hk; [|reflexivity].
    apply elem_of_cons in Hin as [->|Hin]; [congruence|].
    by rewrite IH.
Qed.

Lemma values_at_present {V} (d : gmap Z V) (keys : list Z) :
  (∀ a, a ∈ keys → is_Some (d !! a)) →
  ∃ vs, values_at d keys = Ok vs ∧ Forall2 (λ a v, d !! a = Some v) keys vs.
Proof.
  unfold values_at. induction keys as [|k keys IH]; intros Hall.
  - exists []. split; [done | constructor].
  - destruct (Hall k) as [v Hv]; [left|].
    destruct IH as (vs & Hvs & Hall'); [intros a Ha; apply Hall; by right|].
    exists (v :: vs). split; [|by constructor].
    cbn [mapM]. rewrite (getitem_unfold d k), Hv, Hvs. reflexivity.
Qed.

Lemma sumQ_normalised (w : list Z) (s : Q) :
  (sumQ (map (λ c, inject_Z c / s) w) == inject_Z (sumZ w) / s)%Q.
Proof.
  induction w as [|c w IH]; simpl.
  - unfold Qdiv. by rewrite Qmult_0_l.
  - rewrite IH, inject_Z_plus. unfold Qdiv. ring.
Qed.

(** Non-negative weights with a positive total pass the checks of
    [np.random.choice]. *)
Lemma normalised_valid (w : list Z) :
  Forall (λ c, 0 ≤ c) w → 0 < sumZ w →
  ∃ p, normalised w = Some p ∧ length p = length w ∧ valid_probabilities p = true.
Proof.
  intros Hnn Hpos. unfold normalised. rewrite decide_False by lia.
  eexists. split; [reflexivity|]. split; [by rewrite length_map|].
  assert (0 < inject_Z (sumZ w))%Q as Hs.
  { change 0%Q with (inject_Z 0). by rewrite <- Zlt_Qlt. }
  unfold valid_probabilities. apply andb_true_iff. split.
  - apply forallb_forall. intros q Hq. apply in_map_iff in Hq as (c & <- & Hc).
    apply Qle_bool_iff. apply Qle_shift_div_l; [done|]. rewrite Qmult_0_l.
    change 0%Q with (inject_Z 0). rewrite <- Zle_Qle.
    apply list_elem_of_In in Hc. by eapply Forall_forall in Hnn.
  - apply Qeq_bool_iff. rewrite sumQ_normalised. field.
    intros Hz. rewrite Hz in Hs. by apply Qlt_irrefl in Hs.
Qed.

(** X15: lines 441-445, when no potential worker is left in the staff age
    range: the draw raises [KeyError] if an age of the range has no counter,
    and [IndexError] if the counters still announce a worker. *)
Theorem staff_draw_without_supply (range : list Z) (p : Pools) (g : rng) :
  ((∃ a, a ∈ range ∧ workers_by_age_to_assign_count p !! a = None) →
   draw_staff_member range p g = Raise KeyError)
  ∧ (counts_nonneg p →
     (∀ a, a ∈ range → is_Some (workers_by_age_to_assign_count p !! a)
                       ∧ potential_worker_uids_by_age p !! a = Some []) →
     (∃ a c, a ∈ range ∧ workers_by_age_to_assign_count p !! a = Some c ∧ 0 < c) →
     draw_staff_member range p g = Raise IndexError).
Proof.
  split.
  - intros (a & Hin & Hnone). unfold draw_staff_member, mbind, ST_bind.
    by rewrite (values_at_missing _ _ _ Hin Hnone).
  - intros Hp Hall (a & c & Hin & Hc & Hpos).
    destruct (values_at_present (workers_by_age_to_assign_count p) range)
      as (w & Hw & Hlook); [intros b Hb; by apply Hall|].
    pose proof (values_at_nonneg _ _ _ Hp Hw) as Hnn.
    assert (0 < sumZ w) as Hsum.
    { apply list_elem_of_lookup in Hin as [i Hi].
      destruct (Forall2_lookup_l _ _ _ _ _ Hlook Hi) as (c' & Hi' & Hc').
      rewrite Hc in Hc'. injection Hc' as <-.
      apply list_elem_of_split_length in Hi' as (w1 & w2 & -> & _).
      apply Forall_app in Hnn as [Hnn1 Hnn2]. apply Forall_cons in Hnn2 as [_ Hnn2].
      rewrite sumZ_app. simpl.
      pose proof (sumZ_nonneg _ Hnn1). pose proof (sumZ_nonneg _ Hnn2). lia. }
    destruct (normalised_valid w Hnn Hsum) as (pr & Hnorm & Hlen & Hvalid).
    assert (range ≠ []) as Hne by (intros ->; by apply elem_of_nil in Hin).
    destruct (choice_p_total range pr g Hne) as (x & g1 & Hx & Hxin);
      [by rewrite Hlen, (values_at_length _ _ _ Hw) | done |].
    destruct (Hall x Hxin) as [[cx Hcx] Hempty].
    unfold draw_staff_member, mbind, ST_bind. rewrite Hw. simpl.
    unfold choice_weighted. rewrite Hnorm, Hx.
    unfold lift, getitem. by rewrite Hempty.
Qed.

Lemma staff_draw_without_supply_witness :
  draw_staff_member [30]
    {| potential_worker_uids := ∅;
       potential_worker_uids_by_age := {[ 30 := [] ]};
       workers_by_age_to_assign_count := {[ 30 := 2 ]} |}
    (gen Small.world0) = Raise IndexError.
Proof.
  apply staff_draw_without_supply.
  - intros a c Hc. cbn [workers_by_age_to_assign_count] in Hc.
    apply lookup_singleton_Some in Hc as [_ <-]. lia.
  - intros a Ha. apply list_elem_of_singleton in Ha as ->.
    split; [by exists 2 | reflexivity].
  - exists 30, 2. split; [apply list_elem_of_here|]. split; [reflexivity | lia].
Defined.
